(** * Apple10Q-NLP-Insights: the synonym index and the mention locator

    A shallow embedding of [src/main.py] and [src/finbert.py].  The two
    files share [get_technologies] and [find_context] and differ in the
    classification backend and in how [main] reports its results.

    Python [str] values are modelled as lists of characters.  The
    development covers ASCII text: [\w], [\s] and [re.IGNORECASE] are the
    ASCII restrictions of Python's Unicode classes. *)

From Stdlib Require Import Ascii String List ZArith Bool Arith Lia.
Import ListNotations.

(** ** Python strings *)

Definition str := list ascii.

(** [lit "iPad"] is the Python literal ["iPad"]. *)
Definition lit (x : string) : str := list_ascii_of_string x.

Fixpoint str_eqb (a b : str) : bool :=
  match a, b with
  | [], [] => true
  | x :: a', y :: b' => Ascii.eqb x y && str_eqb a' b'
  | _, _ => false
  end.

Module Char.

Definition code (c : ascii) : nat := nat_of_ascii c.

Definition between (lo hi : nat) (c : ascii) : bool :=
  (lo <=? code c) && (code c <=? hi).

(** [\w] on ASCII: letters, digits and the underscore. *)
Definition is_word (c : ascii) : bool :=
  between 48 57 c || between 65 90 c || between 97 122 c || (code c =? 95).

(** [\s] and [str.isspace] on ASCII: TAB, LF, VT, FF, CR, the four
    separators 0x1c-0x1f and the space. *)
Definition is_space (c : ascii) : bool :=
  between 9 13 c || between 28 32 c.

Definition lower (c : ascii) : ascii :=
  if between 65 90 c then ascii_of_nat (code c + 32) else c.

(** Two characters are equal under [re.IGNORECASE]. *)
Definition eq_ci (a b : ascii) : bool := Ascii.eqb (lower a) (lower b).

End Char.

Module Py.

(** [s.split(sep)] for a one-character separator: never an empty list. *)
Fixpoint split (sep : ascii) (s : str) : list str :=
  match s with
  | [] => [[]]
  | c :: r =>
      if Ascii.eqb c sep then [] :: split sep r
      else match split sep r with
           | [] => [[c]]
           | p :: ps => (c :: p) :: ps
           end
  end.

Fixpoint lstrip (s : str) : str :=
  match s with
  | [] => []
  | c :: r => if Char.is_space c then lstrip r else s
  end.

Definition rstrip (s : str) : str := rev (lstrip (rev s)).

(** [s.strip()] *)
Definition strip (s : str) : str := rstrip (lstrip s).

(** [len(s)] as a Python int. *)
Definition len (s : str) : Z := Z.of_nat (length s).

(** One bound of a slice [s[i:j]]: a negative bound counts from the end,
    and every bound is clamped to [0, len(s)]. *)
Definition slice_bound (s : str) (i : Z) : nat :=
  Z.to_nat (if (i <? 0)%Z then Z.max 0 (len s + i) else Z.min i (len s)).

(** [s[i:j]] *)
Definition slice (s : str) (i j : Z) : str :=
  let lo := slice_bound s i in
  let hi := slice_bound s j in
  firstn (hi - lo) (skipn lo s).

End Py.

(** ** Insertion-ordered dictionaries with string keys

    A Python [dict] keeps its keys in insertion order, and [main] reports
    in that order, so a dictionary is an association list.  [set] writes
    in place when the key is present and appends otherwise. *)

Module Dict.

Definition t (V : Type) := list (str * V).

Definition keys {V} (d : t V) : list str := map fst d.

Fixpoint get {V} (k : str) (d : t V) : option V :=
  match d with
  | [] => None
  | (k', v) :: r => if str_eqb k k' then Some v else get k r
  end.

(** [k in d] *)
Definition mem {V} (k : str) (d : t V) : bool :=
  match get k d with Some _ => true | None => false end.

(** [d[k] = v] *)
Fixpoint set {V} (k : str) (v : V) (d : t V) : t V :=
  match d with
  | [] => [(k, v)]
  | (k', v') :: r =>
      if str_eqb k k' then (k', v) :: r else (k', v') :: set k v r
  end.

(** [not d] *)
Definition is_empty {V} (d : t V) : bool :=
  match d with [] => true | _ => false end.

End Dict.

(** ** The taxonomy normalizer: [get_technologies] *)

(** One cell of the column [df['technologies']] as [pd.read_csv] yields it:
    a text cell, or the float NaN that stands for an empty or missing
    cell. *)
Inductive cell : Type :=
| CellStr (v : str)
| CellNaN.

(** [str(techs)] *)
Definition py_str (c : cell) : str :=
  match c with
  | CellStr v => v
  | CellNaN => lit "nan"
  end.

(** The dictionary literal at the top of [get_technologies]; it is built
    anew by every call. *)
Definition synonym_seed : Dict.t (list str) :=
  [ (lit "Mac", [lit "Mac"; lit "macOS"; lit "MacBook"]);
    (lit "iPhone", [lit "iPhone"; lit "iOS"]);
    (lit "iPad", [lit "iPad"; lit "iOS"]);
    (lit "Apple Watch", [lit "Apple Watch"; lit "watchOS"]);
    (lit "Apple TV", [lit "Apple TV"; lit "tvOS"]);
    (lit "Apple Pay", [lit "Apple Pay"]);
    (lit "iCloud", [lit "iCloud"; lit "Cloud Computing"]) ].

(** [[t.strip() for t in str(techs).split(';')]] *)
Definition row_techs (c : cell) : list str :=
  map Py.strip (Py.split ";"%char (py_str c)).

(** The first loop: [tech_list.extend(...)] for every row. *)
Definition tech_list (df_technologies : list cell) : list str :=
  flat_map row_techs df_technologies.

(** [re.sub(r'[^\w\s]', '', tech).strip()] *)
Definition normalize (tech : str) : str :=
  Py.strip (filter (fun c => Char.is_word c || Char.is_space c) tech).

Definition nonempty (x : str) : bool :=
  match x with [] => false | _ => true end.

(** The body of the normalization loop. *)
Definition add_tech (synonym_map : Dict.t (list str)) (tech : str)
  : Dict.t (list str) :=
  let normalized_tech := normalize tech in
  if nonempty normalized_tech && negb (Dict.mem normalized_tech synonym_map)
  then Dict.set normalized_tech [normalized_tech] synonym_map
  else synonym_map.

(** The normalization loop, started from any dictionary. *)
Definition add_techs (synonym_map : Dict.t (list str)) (techs : list str)
  : Dict.t (list str) :=
  fold_left add_tech techs synonym_map.

Definition get_technologies (df_technologies : list cell)
  : Dict.t (list str) :=
  add_techs synonym_seed (tech_list df_technologies).

(** ** The mention locator: [find_context] *)

(** The pattern [re.compile(r'\b' + re.escape(variation) + r'\b',
    re.IGNORECASE)]: the variation as a literal, ignoring case, between
    two word boundaries. *)
Module Re.

(** The character at index [i] exists and is a word character. *)
Definition word_at (document : str) (i : nat) : bool :=
  match nth_error document i with
  | Some c => Char.is_word c
  | None => false
  end.

Definition word_before (document : str) (i : nat) : bool :=
  match i with
  | 0 => false
  | S j => word_at document j
  end.

(** [\b] at position [i]: exactly one side is a word character. *)
Definition boundary (document : str) (i : nat) : bool :=
  xorb (word_before document i) (word_at document i).

(** The literal [pat] is read, ignoring case, at the front of [text]. *)
Fixpoint prefix_ci (pat text : str) : bool :=
  match pat, text with
  | [], _ => true
  | p :: pat', c :: text' => Char.eq_ci p c && prefix_ci pat' text'
  | _ :: _, [] => false
  end.

(** The pattern of [variation] matches [document] from position [i]. *)
Definition match_at (variation document : str) (i : nat) : bool :=
  boundary document i
  && prefix_ci variation (skipn i document)
  && boundary document (i + length variation).

(** Every position where the pattern matches, left to right.
    [pattern.finditer(document)] yields its matches in this order,
    starting with the leftmost. *)
Definition match_positions (variation document : str) : list nat :=
  filter (match_at variation document) (seq 0 (S (length document))).

(** The first match of [pattern.finditer(document)], as
    [(match.start(), match.end())]. *)
Definition first_match (variation document : str) : option (nat * nat) :=
  match find (match_at variation document) (seq 0 (S (length document))) with
  | Some i => Some (i, i + length variation)
  | None => None
  end.

End Re.

(** [document[start:end]] with [start = max(0, match.start() - window)] and
    [end = min(len(document), match.end() + window)]. *)
Definition context (document : str) (window : Z) (m : nat * nat) : str :=
  let start := Z.max 0 (Z.of_nat (fst m) - window) in
  let end_ := Z.min (Py.len document) (Z.of_nat (snd m) + window) in
  Py.slice document start end_.

(** The objects [find_context] works on: the dictionary it is given, the
    dictionary it builds, and a record of the searches it starts, one
    [(primary_tech, variation)] per call of [pattern.finditer]. *)
Record store : Type := {
  st_technologies : Dict.t (list str);
  st_mentions : Dict.t str;
  st_searches : list (str * str)
}.

(** [mentions[primary_tech] = context] *)
Definition set_mention (primary_tech ctx : str) (h : store) : store :=
  {| st_technologies := st_technologies h;
     st_mentions := Dict.set primary_tech ctx (st_mentions h);
     st_searches := st_searches h |}.

Definition log_search (primary_tech variation : str) (h : store) : store :=
  {| st_technologies := st_technologies h;
     st_mentions := st_mentions h;
     st_searches := st_searches h ++ [(primary_tech, variation)] |}.

(** [for match in pattern.finditer(document): ...; break]: the body runs
    for the first match only. *)
Definition scan_matches (document : str) (window : Z)
    (primary_tech variation : str) (h : store) : store :=
  match Re.first_match variation document with
  | Some m =>
      set_mention primary_tech (context document window m)
        (log_search primary_tech variation h)
  | None => log_search primary_tech variation h
  end.

(** [for variation in variations: ...], left when [primary_tech] is in
    [mentions]. *)
Fixpoint scan_variations (document : str) (window : Z)
    (primary_tech : str) (variations : list str) (h : store) : store :=
  match variations with
  | [] => h
  | variation :: rest =>
      let h' := scan_matches document window primary_tech variation h in
      if Dict.mem primary_tech (st_mentions h') then h'
      else scan_variations document window primary_tech rest h'
  end.

Definition scan_entry (document : str) (window : Z) (h : store)
    (entry : str * list str) : store :=
  scan_variations document window (fst entry) (snd entry) h.

(** The state in which [find_context] returns. *)
Definition find_context_store (document : str)
    (technologies : Dict.t (list str)) (window : Z) : store :=
  fold_left (scan_entry document window) technologies
    {| st_technologies := technologies;
       st_mentions := [];
       st_searches := [] |}.

Definition find_context (document : str) (technologies : Dict.t (list str))
    (window : Z) : Dict.t str :=
  st_mentions (find_context_store document technologies window).

(** [window=500] *)
Definition default_window : Z := 500.

(** The searches started for one entity, in order. *)
Definition searches_of (primary_tech : str) (h : store) : list str :=
  map snd (filter (fun p => str_eqb (fst p) primary_tech) (st_searches h)).

(** ** The two [main] functions

    A run prints lines and either returns or is ended by an exception that
    nothing catches.  The classification backend is a parameter: it
    answers with a result or raises. *)

Inductive result (A E : Type) : Type :=
| Ok (a : A)
| Raise (e : E).

Arguments Ok {A E} a.
Arguments Raise {A E} e.

Section Main.

(** What a backend returns, and what it raises. *)
Variables (analysis exn : Type).

(** The lines a run prints. *)
Inductive event : Type :=
| Step1
| FileNotFound
| TechListPrinted (techs : list str)
| SynonymMapPrinted (synonym_map : Dict.t (list str))
| Step2
| ContextPrinted (tech ctx : str)
| Step3
| NoTechnologies
| Analyzing (tech : str)
| FinalAnalysis (tech : str) (a : analysis)
| TableHeader
| TableRow (tech : str) (sentiment : analysis)
| TableEnd.

Inductive outcome : Type :=
| Returned (out : list event)
| Raised (out : list event) (e : exn).

Definition printed (o : outcome) : list event :=
  match o with
  | Returned out => out
  | Raised out _ => out
  end.

(** *** [main.py] *)

(** [analyze_with_openai(text, technology)]: the remote call and
    [json.loads] of its answer. *)
Variable analyze_with_openai : str -> str -> result analysis exn.

(** The prints of [get_technologies] in [main.py]. *)
Definition get_technologies_prints (df_technologies : list cell)
  : list event :=
  [TechListPrinted (tech_list df_technologies);
   SynonymMapPrinted (get_technologies df_technologies)].

(** The prints of [find_context] in [main.py]: [context[:100]] for every
    mention. *)
Definition find_context_prints (mentions : Dict.t str) : list event :=
  map (fun p => ContextPrinted (fst p) (firstn 100 (snd p))) mentions.

(** [for tech, context in tech_mentions.items(): ...] of [main.py]. *)
Fixpoint analyze_loop_openai (items : list (str * str)) (out : list event)
  : outcome :=
  match items with
  | [] => Returned out
  | (tech, ctx) :: rest =>
      match analyze_with_openai ctx tech with
      | Ok a =>
          analyze_loop_openai rest
            (out ++ [Analyzing tech; FinalAnalysis tech a])
      | Raise e => Raised (out ++ [Analyzing tech]) e
      end
  end.

(** [main()] of [main.py].  [pdf] is what [parse_pdf_to_text] returns and
    [csv] the column read by [pd.read_csv]; [None] is a missing file. *)
Definition main_openai (pdf : option str) (csv : option (list cell))
  : outcome :=
  match pdf, csv with
  | Some apple_10q_text, Some df_technologies =>
      let gartner_techs := get_technologies df_technologies in
      let tech_mentions :=
        find_context apple_10q_text gartner_techs default_window in
      let out :=
        [Step1] ++ get_technologies_prints df_technologies ++ [Step2]
        ++ find_context_prints tech_mentions ++ [Step3] in
      if Dict.is_empty tech_mentions then Returned (out ++ [NoTechnologies])
      else analyze_loop_openai tech_mentions out
  | _, _ => Returned [Step1; FileNotFound]
  end.

(** *** [finbert.py] *)

(** [analyze_with_finbert(text)["Sentiment"]] *)
Variable analyze_with_finbert : str -> result analysis exn.

(** The loop that fills [analysis_results]. *)
Fixpoint analyze_loop_finbert (items : list (str * str))
    (out : list event) (analysis_results : list (str * analysis))
  : result (list event * list (str * analysis)) (list event * exn) :=
  match items with
  | [] => Ok (out, analysis_results)
  | (tech, ctx) :: rest =>
      match analyze_with_finbert ctx with
      | Ok a =>
          analyze_loop_finbert rest (out ++ [Analyzing tech])
            (analysis_results ++ [(tech, a)])
      | Raise e => Raise (out ++ [Analyzing tech], e)
      end
  end.

Definition print_table (analysis_results : list (str * analysis))
  : list event :=
  [TableHeader] ++ map (fun r => TableRow (fst r) (snd r)) analysis_results
  ++ [TableEnd].

(** [main()] of [finbert.py]. *)
Definition main_finbert (pdf : option str) (csv : option (list cell))
  : outcome :=
  match pdf, csv with
  | Some apple_10q_text, Some df_technologies =>
      let gartner_techs := get_technologies df_technologies in
      let tech_mentions :=
        find_context apple_10q_text gartner_techs default_window in
      let out := [Step1; Step2; Step3] in
      if Dict.is_empty tech_mentions then Returned (out ++ [NoTechnologies])
      else
        match analyze_loop_finbert tech_mentions out [] with
        | Ok (out', analysis_results) =>
            Returned (out' ++ print_table analysis_results)
        | Raise (out', e) => Raised out' e
        end
  | _, _ => Returned [Step1; FileNotFound]
  end.

(** The results a run has printed, in order. *)
Fixpoint results_printed (out : list event) : list (str * analysis) :=
  match out with
  | [] => []
  | FinalAnalysis tech a :: rest => (tech, a) :: results_printed rest
  | TableRow tech a :: rest => (tech, a) :: results_printed rest
  | _ :: rest => results_printed rest
  end.

(** The entity [tech] has a result in what was printed. *)
Definition reported (tech : str) (out : list event) : Prop :=
  exists a, In (FinalAnalysis tech a) out \/ In (TableRow tech a) out.

(** The run ends normally and its report has every located entity other
    than [failing]. *)
Definition survives_failure (o : outcome) (mentions : Dict.t str)
    (failing : str) : Prop :=
  exists out,
    o = Returned out /\
    forall tech, In tech (Dict.keys mentions) -> tech <> failing ->
                 reported tech out.

End Main.

Arguments Step1 {analysis}.
Arguments FileNotFound {analysis}.
Arguments TechListPrinted {analysis} techs.
Arguments SynonymMapPrinted {analysis} synonym_map.
Arguments Step2 {analysis}.
Arguments ContextPrinted {analysis} tech ctx.
Arguments Step3 {analysis}.
Arguments NoTechnologies {analysis}.
Arguments Analyzing {analysis} tech.
Arguments FinalAnalysis {analysis} tech a.
Arguments TableHeader {analysis}.
Arguments TableRow {analysis} tech sentiment.
Arguments TableEnd {analysis}.
Arguments results_printed {analysis} out.
Arguments printed {analysis exn} o.
Arguments reported {analysis} tech out.
Arguments survives_failure {analysis exn} o mentions failing.
Arguments Returned {analysis exn} out.
Arguments Raised {analysis exn} out e.

(** ** Text extraction: [parse_pdf_to_text]

    [PdfReader] and [page.extract_text] are the PDF library's; what they
    give, the text of every page in order, is the input here. *)

Module Hyphen.

Definition hyphen : ascii := "-"%char.

Definition newline : ascii := ascii_of_nat 10.

(** [\w+] from the front of [t]: the longest run of word characters and
    what follows it. *)
Fixpoint span_word (t : str) : str * str :=
  match t with
  | [] => ([], [])
  | c :: r =>
      if Char.is_word c
      then let (w, rest) := span_word r in (c :: w, rest)
      else ([], t)
  end.

(** The pattern [(\w+)-\n(\w+)] read from the front of [t]: both groups
    and the text behind the match.  Both [\w+] take a whole run: a shorter
    first group would be followed by a word character, not by the
    hyphen. *)
Definition match_here (t : str) : option (str * str * str) :=
  let (g1, r1) := span_word t in
  match g1, r1 with
  | _ :: _, h :: n :: r2 =>
      if Ascii.eqb h hyphen && Ascii.eqb n newline
      then let (g2, r3) := span_word r2 in
           match g2 with
           | _ :: _ => Some (g1, g2, r3)
           | [] => None
           end
      else None
  | _, _ => None
  end.

(** [re.sub(r'(\w+)-\n(\w+)', r'\1\2', t)], left to right: where the
    pattern matches, the two groups are written and the scan goes on behind
    the match; elsewhere one character is copied.  Every turn uses up at
    least one character, so [fuel] need not exceed the length of [t]. *)
Fixpoint sub_fuel (fuel : nat) (t : str) : str :=
  match fuel with
  | 0 => t
  | S fuel' =>
      match t with
      | [] => []
      | c :: r =>
          match match_here t with
          | Some (g1, g2, rest) => g1 ++ g2 ++ sub_fuel fuel' rest
          | None => c :: sub_fuel fuel' r
          end
      end
  end.

Definition rejoin (t : str) : str := sub_fuel (length t) t.

End Hyphen.

(** The loop [text += page_text + "\n"]. *)
Definition pages_text (pages : list str) : str :=
  flat_map (fun page_text => page_text ++ [Hyphen.newline]) pages.

(** [parse_pdf_to_text] on the texts of the pages. *)
Definition parse_pdf_to_text (pages : list str) : str :=
  Hyphen.rejoin (pages_text pages).

(** [parse_pdf_to_text] of [finbert.py]: [None] for a missing file.  In
    [main.py] the same case is the [FileNotFoundError] that [main]
    catches. *)
Definition parse_pdf_to_text_finbert (reader : option (list str))
  : option str :=
  option_map parse_pdf_to_text reader.

(** [get_technologies] of [finbert.py]: [None] for a missing file. *)
Definition get_technologies_finbert (csv : option (list cell))
  : option (Dict.t (list str)) :=
  option_map get_technologies csv.

(** ** Notions the properties are stated with *)

(** Equality of strings ignoring case, as a relation and as a test. *)
Definition same_ci (a b : str) : Prop :=
  Forall2 (fun x y => Char.eq_ci x y = true) a b.

Definition str_eqb_ci (a b : str) : bool :=
  str_eqb (map Char.lower a) (map Char.lower b).

Definition starts_with_word (x : str) : bool :=
  match x with
  | c :: _ => Char.is_word c
  | [] => false
  end.

Definition ends_with_word (x : str) : bool := starts_with_word (rev x).

(** [word] stands in [document] as a word of its own: some spelling of it,
    ignoring case, with no word character directly before or after. *)
Definition standalone (word document : str) : Prop :=
  exists pre mid post,
    document = pre ++ mid ++ post /\ same_ci word mid /\
    ends_with_word pre = false /\ starts_with_word post = false.

(** [word] occurs in [document], as a word or inside one. *)
Definition occurs_in (word document : str) : Prop :=
  exists pre post, document = pre ++ word ++ post.

(** No space at the front of [x]. *)
Definition starts_with_space_free (x : str) : Prop :=
  match x with
  | c :: _ => Char.is_space c = false
  | [] => True
  end.

(** A variation that begins and ends with a word character. *)
Definition framed (variation : str) : Prop :=
  starts_with_word variation = true /\ ends_with_word variation = true.

(** The variation has no match in the document. *)
Definition unmatched (document variation : str) : Prop :=
  forall j, Re.match_at variation document j = false.

(** The spec's invariant on a synonym index: no empty variation list, and
    no variation shared, ignoring case, by two distinct canonical keys. *)
Definition variations_nonempty (index : Dict.t (list str)) : Prop :=
  forall k vs, In (k, vs) index -> vs <> [].

Definition variations_disjoint_ci (index : Dict.t (list str)) : Prop :=
  forall k1 vs1 k2 vs2 v1 v2,
    In (k1, vs1) index -> In (k2, vs2) index -> k1 <> k2 ->
    In v1 vs1 -> In v2 vs2 -> str_eqb_ci v1 v2 = false.

(** The entry a discovered name is inserted as. *)
Definition discovered_entry (name : str) : str * list str := (name, [name]).

(** [name] is listed as a variation under some canonical key. *)
Definition is_variation (name : str) (index : Dict.t (list str)) : Prop :=
  exists k vs, In (k, vs) index /\ In name vs.

(** Two indexes compared without regard to insertion order: the same keys,
    and under each key the same variations as a set. *)
Definition same_index (a b : Dict.t (list str)) : Prop :=
  (forall k, In k (Dict.keys a) <-> In k (Dict.keys b)) /\
  (forall k, match Dict.get k a, Dict.get k b with
             | Some x, Some y => forall v, In v x <-> In v y
             | None, None => True
             | _, _ => False
             end).

(** What was done for the entry [(k, vs)] when [find_context] returns in
    [h]: either some variation is the first with a match, its leftmost
    match gives the context stored for [k] and the searches for [k] end
    with it; or no variation has a match, nothing is stored for [k] and
    every variation was searched. *)
Definition first_match_wins (document : str) (window : Z) (k : str)
    (vs : list str) (h : store) : Prop :=
  (exists pre v post i,
      vs = pre ++ v :: post /\
      (forall u, In u pre -> unmatched document u) /\
      Re.match_at v document i = true /\
      (forall j, j < i -> Re.match_at v document j = false) /\
      Dict.get k (st_mentions h)
        = Some (context document window (i, i + length v)) /\
      searches_of k h = pre ++ [v])
  \/
  ((forall u, In u vs -> unmatched document u) /\
   Dict.get k (st_mentions h) = None /\
   searches_of k h = vs).

(** A mention [(k, ctx)] is backed by the index: [ctx] is the context of a
    match of one of the variations the index lists under [k]. *)
Definition justified (document : str) (technologies : Dict.t (list str))
    (window : Z) (mention : str * str) : Prop :=
  exists vs v i,
    In (fst mention, vs) technologies /\ In v vs /\
    Re.match_at v document i = true /\
    snd mention = context document window (i, i + length v).

(** The insertion rule as the spec words it: the name becomes a new entry
    exactly when it is neither a canonical key nor a variation. *)
Definition spec_insertion_rule (index : Dict.t (list str)) (tech : str)
  : Prop :=
  add_tech index tech = index ++ [discovered_entry (normalize tech)] <->
  (~ In (normalize tech) (Dict.keys index) /\
   ~ is_variation (normalize tech) index).

(** The whole-word property as the spec words it, for one index and one
    document: with iPadding in the document and iPad not a word of its own
    there, the entity iPad has no mention. *)
Definition no_mention_claim (index : Dict.t (list str)) (document : str)
  : Prop :=
  occurs_in (lit "iPadding") document ->
  ~ standalone (lit "iPad") document ->
  Dict.get (lit "iPad") (find_context document index default_window) = None.

(** A character outside [\w]. *)
Definition nonword (c : ascii) : Prop := Char.is_word c = false.

(** The state of [find_context] after the entries [done]: mentions and
    searches are about keys of [done] only, and every entry of [done] was
    dealt with as [first_match_wins] says. *)
Definition scanned_prefix (document : str) (window : Z)
    (done : Dict.t (list str)) (h : store) : Prop :=
  (forall k, In k (Dict.keys (st_mentions h)) -> In k (Dict.keys done)) /\
  (forall k v, In (k, v) (st_searches h) -> In k (Dict.keys done)) /\
  (forall k vs, In (k, vs) done -> first_match_wins document window k vs h).

(** A run of word characters, and one that is a word (not empty). *)
Definition word_run (w : str) : Prop := Forall (fun c => Char.is_word c = true) w.

Definition is_a_word (w : str) : Prop := w <> [] /\ word_run w.

(** The line break of a hyphenated word: a hyphen and a newline. *)
Definition line_break : str := [Hyphen.hyphen; Hyphen.newline].

(** The text has no hyphen directly followed by a newline. *)
Definition no_line_break (t : str) : Prop :=
  forall pre post, t <> pre ++ line_break ++ post.

(** Neither a hyphen nor a newline. *)
Definition not_break_char (c : ascii) : bool :=
  negb (Ascii.eqb c Hyphen.hyphen || Ascii.eqb c Hyphen.newline).

(** A character that ends a word and is no part of a line break. *)
Definition separator (c : ascii) : Prop :=
  Char.is_word c = false /\ not_break_char c = true.

(** What may follow a word that is not to be joined: nothing, or a
    separator. *)
Definition starts_clean (post : str) : Prop :=
  match post with
  | [] => True
  | c :: _ => separator c
  end.

(** [name] is one of [names]. *)
Definition str_in (name : str) (names : list str) : bool :=
  existsb (str_eqb name) names.

(** [sep.join(pieces)] for a one-character separator. *)
Fixpoint join_with (sep : ascii) (pieces : list str) : str :=
  match pieces with
  | [] => []
  | [p] => p
  | p :: rest => p ++ sep :: join_with sep rest
  end.

(** A string of word characters and spaces only, with no space at either
    end. *)
Definition clean_name (x : str) : Prop :=
  Forall (fun c => Char.is_word c || Char.is_space c = true) x /\
  starts_with_space_free x /\ starts_with_space_free (rev x).

(** Some variation of the list has a match in the document. *)
Definition has_match (document : str) (variations : list str) : bool :=
  existsb (fun v => match Re.first_match v document with
                    | Some _ => true
                    | None => false
                    end) variations.

(** Two indexes with the same keys in the same order whose variations
    differ in case only. *)
Definition index_same_ci (a b : Dict.t (list str)) : Prop :=
  Forall2 (fun e e' => fst e = fst e' /\ Forall2 same_ci (snd e) (snd e'))
    a b.

(** A test for a hyphen directly followed by a newline. *)
Fixpoint has_line_break (t : str) : bool :=
  match t with
  | h :: (n :: _) as r =>
      (Ascii.eqb h Hyphen.hyphen && Ascii.eqb n Hyphen.newline)
      || has_line_break r
  | _ => false
  end.

(** A test for an index none of whose variations has a match. *)
Definition nothing_matches (document : str)
    (technologies : Dict.t (list str)) : bool :=
  forallb (fun e => negb (has_match document (snd e))) technologies.

(** Sample texts. *)
Module Texts.

Definition space : ascii := " "%char.

Definition two_pages : list str := [lit "net sales"; lit "of iPhone"].

Definition quiet : str := lit "nothing to see here".

Definition upper_index : Dict.t (list str) :=
  [(lit "iPad", [lit "IPAD"; lit "IOS"]);
   (lit "Mac", [lit "MAC"; lit "MACOS"; lit "macbook"])].

Definition lower_index : Dict.t (list str) :=
  [(lit "iPad", [lit "ipad"; lit "ios"]);
   (lit "Mac", [lit "mac"; lit "macos"; lit "MACBOOK"])].

End Texts.

(** ** Sample runs *)

Module Sample.

Definition doc_ipadding : str := lit "iPadding is not a product; iOS is.".

Definition gap : str := repeat " "%char 300.

(** Three entities, far enough apart for their windows to differ: only
    the window of the second is the whole document. *)
Definition doc_three : str :=
  lit "Mac" ++ gap ++ lit "iPhone" ++ gap ++ lit "iPad".

(** A remote backend that fails on one entity, the kind of failure being
    a malformed answer. *)
Inductive failure : Type := MalformedAnswer.

Definition failing_openai (text technology : str) : result str failure :=
  if str_eqb technology (lit "iPhone") then Raise MalformedAnswer
  else Ok (lit "Positive").

(** A local backend that fails on the context of one entity. *)
Definition failing_finbert (text : str) : result str failure :=
  if str_eqb text doc_three then Raise MalformedAnswer
  else Ok (lit "neutral").

Definition steady_openai (text technology : str) : result str failure :=
  Ok (lit "Positive").

Definition steady_finbert (text : str) : result str failure :=
  Ok (lit "neutral").

End Sample.

(** * Properties *)

(** ** Strings and characters *)

Lemma str_eqb_eq (a b : str) : str_eqb a b = true <-> a = b.
Proof.
  revert b; induction a as [|x a IH]; intros [|y b]; simpl;
    try (split; [discriminate | discriminate]); try tauto.
  rewrite andb_true_iff, Ascii.eqb_eq, IH.
  split.
  - intros [-> ->]; reflexivity.
  - intros E; injection E; auto.
Qed.

Lemma str_eqb_refl (a : str) : str_eqb a a = true.
Proof. apply str_eqb_eq; reflexivity. Qed.

Lemma str_eqb_neq (a b : str) : str_eqb a b = false <-> a <> b.
Proof.
  rewrite <- str_eqb_eq.
  destruct (str_eqb a b); split; congruence.
Qed.

Ltac ascii_cases c :=
  destruct c as [[] [] [] [] [] [] [] []]; vm_compute; try reflexivity;
  try discriminate.

Lemma is_word_lower (c : ascii) : Char.is_word (Char.lower c) = Char.is_word c.
Proof. ascii_cases c. Qed.

Lemma word_not_space (c : ascii) :
  Char.is_word c = true -> Char.is_space c = false.
Proof. ascii_cases c. Qed.

Lemma eq_ci_is_word (a b : ascii) :
  Char.eq_ci a b = true -> Char.is_word a = Char.is_word b.
Proof.
  unfold Char.eq_ci; rewrite Ascii.eqb_eq; intros E.
  rewrite <- (is_word_lower a), <- (is_word_lower b), E; reflexivity.
Qed.

Lemma eq_ci_refl (a : ascii) : Char.eq_ci a a = true.
Proof. unfold Char.eq_ci; apply Ascii.eqb_refl. Qed.

Lemma same_ci_refl (a : str) : same_ci a a.
Proof. induction a; constructor; auto using eq_ci_refl. Qed.

Lemma same_ci_length (a b : str) : same_ci a b -> length a = length b.
Proof. induction 1; simpl; congruence. Qed.

(** ** Dictionaries *)

Module DictFacts.

Lemma get_In {V} (k : str) (v : V) (d : Dict.t V) :
  Dict.get k d = Some v -> In (k, v) d.
Proof.
  induction d as [|[k' v'] r IH]; simpl; [discriminate|].
  destruct (str_eqb k k') eqn:E.
  - apply str_eqb_eq in E; subst k'.
    intros H; injection H as ->; auto.
  - auto.
Qed.

Lemma mem_keys {V} (k : str) (d : Dict.t V) :
  Dict.mem k d = true <-> In k (Dict.keys d).
Proof.
  unfold Dict.mem.
  induction d as [|[k' v'] r IH]; simpl.
  - split; [discriminate | tauto].
  - destruct (str_eqb k k') eqn:E.
    + apply str_eqb_eq in E; subst; tauto.
    + apply str_eqb_neq in E. rewrite IH.
      split; [tauto | intros [H|H]; congruence].
Qed.

Lemma not_mem_keys {V} (k : str) (d : Dict.t V) :
  Dict.mem k d = false <-> ~ In k (Dict.keys d).
Proof.
  rewrite <- mem_keys. destruct (Dict.mem k d); split; congruence.
Qed.

Lemma get_None {V} (k : str) (d : Dict.t V) :
  Dict.get k d = None <-> ~ In k (Dict.keys d).
Proof.
  rewrite <- not_mem_keys. unfold Dict.mem.
  destruct (Dict.get k d); split; congruence.
Qed.

(** Writing a new key appends the binding. *)
Lemma set_fresh {V} (k : str) (v : V) (d : Dict.t V) :
  Dict.mem k d = false -> Dict.set k v d = d ++ [(k, v)].
Proof.
  unfold Dict.mem.
  induction d as [|[k' v'] r IH]; simpl; [reflexivity|].
  destruct (str_eqb k k'); [discriminate|].
  intros H; rewrite IH by exact H; reflexivity.
Qed.

(** Writing never changes the keys already there nor their order. *)
Lemma keys_set {V} (k : str) (v : V) (d : Dict.t V) :
  Dict.keys (Dict.set k v d)
  = if Dict.mem k d then Dict.keys d else Dict.keys d ++ [k].
Proof.
  unfold Dict.mem.
  induction d as [|[k' v'] r IH]; simpl; [reflexivity|].
  destruct (str_eqb k k'); simpl; [reflexivity|].
  rewrite IH. destruct (Dict.get k r); reflexivity.
Qed.

Lemma set_Forall {V} (P : str * V -> Prop) (k : str) (v : V)
    (d : Dict.t V) :
  Forall P d -> P (k, v) -> Forall P (Dict.set k v d).
Proof.
  intros Hd Hk.
  induction d as [|[k' v'] r IH]; simpl.
  - constructor; auto.
  - inversion Hd; subst.
    destruct (str_eqb k k') eqn:E.
    + apply str_eqb_eq in E; subst. constructor; auto.
    + constructor; auto.
Qed.

Lemma get_app {V} (k : str) (d e : Dict.t V) :
  Dict.get k (d ++ e)
  = match Dict.get k d with Some v => Some v | None => Dict.get k e end.
Proof.
  induction d as [|[k' v'] r IH]; simpl; [reflexivity|].
  destruct (str_eqb k k'); auto.
Qed.

Lemma In_get {V} (k : str) (v : V) (d : Dict.t V) :
  NoDup (Dict.keys d) -> In (k, v) d -> Dict.get k d = Some v.
Proof.
  induction d as [|[k' v'] r IH]; simpl; [tauto|].
  intros ND [H|H].
  - injection H as -> ->. rewrite str_eqb_refl; reflexivity.
  - inversion ND; subst.
    destruct (str_eqb k k') eqn:E.
    + apply str_eqb_eq in E; subst.
      exfalso; apply H2. apply (in_map fst) in H; exact H.
    + auto.
Qed.

Lemma In_keys {V} (k : str) (v : V) (d : Dict.t V) :
  In (k, v) d -> In k (Dict.keys d).
Proof. intros H; apply (in_map fst) in H; exact H. Qed.

End DictFacts.

(** ** The synonym index *)

Lemma nonempty_true (x : str) : nonempty x = true <-> x <> [].
Proof. destruct x; simpl; split; congruence. Qed.

(** One turn of the normalization loop: the name is appended as its own
    entry when it is not empty and not a key, and nothing happens
    otherwise. *)
Lemma add_tech_step (m : Dict.t (list str)) (tech : str) :
  add_tech m tech
  = if nonempty (normalize tech) && negb (Dict.mem (normalize tech) m)
    then m ++ [discovered_entry (normalize tech)]
    else m.
Proof.
  unfold add_tech.
  destruct (nonempty (normalize tech)); simpl; [|reflexivity].
  destruct (Dict.mem (normalize tech) m) eqn:E; simpl; [reflexivity|].
  apply DictFacts.set_fresh; exact E.
Qed.

Lemma keys_app_discovered (m : Dict.t (list str)) (news : list str) :
  Dict.keys (m ++ map discovered_entry news) = Dict.keys m ++ news.
Proof.
  unfold Dict.keys. rewrite map_app, map_map. simpl. rewrite map_id.
  reflexivity.
Qed.

(** The whole loop: the entries of the starting dictionary stay as they
    are and in place, and behind them comes one entry for every distinct
    non-empty normalized name that is not one of its keys. *)
Lemma add_techs_spec (techs : list str) :
  forall m : Dict.t (list str),
  exists news,
    add_techs m techs = m ++ map discovered_entry news /\
    NoDup news /\
    forall n, In n news <->
              (In n (map normalize techs) /\ n <> [] /\ ~ In n (Dict.keys m)).
Proof.
  induction techs as [|t ts IH]; intros m.
  - exists []. simpl. rewrite app_nil_r.
    split; [reflexivity|]. split; [constructor|]. simpl; tauto.
  - change (add_techs m (t :: ts)) with (add_techs (add_tech m t) ts).
    rewrite add_tech_step.
    destruct (nonempty (normalize t) && negb (Dict.mem (normalize t) m))
      eqn:Hc.
    + apply andb_true_iff in Hc. destruct Hc as [Hne Hmem].
      apply nonempty_true in Hne.
      apply negb_true_iff, DictFacts.not_mem_keys in Hmem.
      destruct (IH (m ++ [discovered_entry (normalize t)]))
        as (news & Heq & Hnd & Hin).
      assert (Hk : forall n,
                 In n (Dict.keys (m ++ [discovered_entry (normalize t)]))
                 <-> In n (Dict.keys m) \/ n = normalize t).
      { intros n. unfold Dict.keys. rewrite map_app, in_app_iff. simpl.
        intuition congruence. }
      exists (normalize t :: news).
      split; [rewrite Heq, <- app_assoc; reflexivity|].
      split.
      * constructor; [|exact Hnd].
        intros Hc. apply Hin in Hc. destruct Hc as (_ & _ & Hc).
        apply Hc, Hk. auto.
      * intros n. simpl. rewrite Hin, Hk. split.
        -- intros [<-|(H1 & H2 & H3)]; [auto|tauto].
        -- intros (Hn & Hn0 & Hnk).
           destruct (list_eq_dec ascii_dec (normalize t) n) as [E|E];
             [left; exact E|right].
           split; [tauto|]. split; [assumption|].
           intros [H|H]; [tauto|congruence].
    + destruct (IH m) as (news & Heq & Hnd & Hin).
      exists news. split; [exact Heq|]. split; [exact Hnd|].
      intros n. rewrite Hin. simpl. split; [tauto|].
      intros ([Hn|Hn] & Hn0 & Hnk); [exfalso|tauto].
      subst n. apply andb_false_iff in Hc. destruct Hc as [Hc|Hc].
      * apply nonempty_true in Hn0. congruence.
      * apply negb_false_iff, DictFacts.mem_keys in Hc. contradiction.
Qed.

Lemma get_technologies_spec (df : list cell) :
  exists news,
    get_technologies df = synonym_seed ++ map discovered_entry news /\
    NoDup news /\
    forall n, In n news <->
              (In n (map normalize (tech_list df)) /\ n <> [] /\
               ~ In n (Dict.keys synonym_seed)).
Proof. apply add_techs_spec. Qed.

Lemma seed_keys_NoDup : NoDup (Dict.keys synonym_seed).
Proof.
  vm_compute. repeat constructor; simpl; intuition discriminate.
Qed.

Lemma seed_entries_own_key :
  Forall (fun e => snd e <> [] /\ In (fst e) (snd e)) synonym_seed.
Proof.
  repeat constructor; simpl; auto; discriminate.
Qed.

(** The keys of the index are pairwise distinct, as in any dictionary. *)
Lemma get_technologies_keys_NoDup (df : list cell) :
  NoDup (Dict.keys (get_technologies df)).
Proof.
  destruct (get_technologies_spec df) as (news & -> & Hnd & Hin).
  rewrite keys_app_discovered.
  apply NoDup_app; [apply seed_keys_NoDup | exact Hnd |].
  intros k Hk Hn. apply Hin in Hn. tauto.
Qed.

(** The seed entries are in every index, unchanged. *)
Lemma get_technologies_keeps_seed (df : list cell) (k : str) (vs : list str) :
  In (k, vs) synonym_seed -> In (k, vs) (get_technologies df).
Proof.
  destruct (get_technologies_spec df) as (news & -> & _).
  intros H. apply in_or_app; auto.
Qed.

Lemma same_index_refl (a : Dict.t (list str)) : same_index a a.
Proof.
  split; [tauto|]. intros k. destruct (Dict.get k a); tauto.
Qed.

Lemma tech_list_app (a b : list cell) :
  tech_list (a ++ b) = tech_list a ++ tech_list b.
Proof. apply flat_map_app. Qed.

Lemma add_techs_app (m : Dict.t (list str)) (a b : list str) :
  add_techs m (a ++ b) = add_techs (add_techs m a) b.
Proof. apply fold_left_app. Qed.

(** Names that normalize to nothing leave the dictionary as it is. *)
Lemma add_techs_blank (techs : list str) (m : Dict.t (list str)) :
  Forall (fun t => normalize t = []) techs -> add_techs m techs = m.
Proof.
  induction 1 as [|t ts Ht _ IH]; [reflexivity|].
  change (add_techs m (t :: ts)) with (add_techs (add_tech m t) ts).
  rewrite add_tech_step, Ht. simpl. exact IH.
Qed.

Section BlankRows.

Lemma split_Forall (P : ascii -> Prop) (sep : ascii) (v : str) :
  Forall P v -> Forall (Forall P) (Py.split sep v).
Proof.
  induction 1 as [|c r Hc _ IH]; simpl.
  - repeat constructor.
  - destruct (Ascii.eqb c sep).
    + constructor; [constructor | exact IH].
    + destruct (Py.split sep r) as [|p ps].
      * repeat constructor; exact Hc.
      * inversion IH; subst. constructor; [constructor|]; assumption.
Qed.

Lemma lstrip_Forall (P : ascii -> Prop) (v : str) :
  Forall P v -> Forall P (Py.lstrip v).
Proof.
  induction 1 as [|c r Hc Hr IH]; simpl; [constructor|].
  destruct (Char.is_space c); [exact IH | constructor; assumption].
Qed.

Lemma strip_Forall (P : ascii -> Prop) (v : str) :
  Forall P v -> Forall P (Py.strip v).
Proof.
  intros H. unfold Py.strip, Py.rstrip.
  apply Forall_rev, lstrip_Forall, Forall_rev, lstrip_Forall, H.
Qed.

Lemma lstrip_spaces (v : str) :
  Forall (fun c => Char.is_space c = true) v -> Py.lstrip v = [].
Proof.
  induction 1 as [|c r Hc _ IH]; simpl; [reflexivity|].
  rewrite Hc. exact IH.
Qed.

(** A piece without a word character normalizes to the empty string. *)
Lemma normalize_nonword (v : str) : Forall nonword v -> normalize v = [].
Proof.
  intros H. unfold normalize, Py.strip.
  rewrite lstrip_spaces; [reflexivity|].
  apply Forall_forall. intros c Hc. apply filter_In in Hc.
  destruct Hc as [Hc Hf].
  rewrite Forall_forall in H. rewrite (H c Hc) in Hf. exact Hf.
Qed.

(** A text cell without a word character (an empty cell text, blanks,
    separators, punctuation) adds nothing to the index. *)
Lemma blank_row_contributes_nothing (pre post : list cell) (v : str) :
  Forall nonword v ->
  get_technologies (pre ++ CellStr v :: post) = get_technologies (pre ++ post).
Proof.
  intros H. unfold get_technologies.
  change (CellStr v :: post) with ([CellStr v] ++ post).
  rewrite !tech_list_app, !add_techs_app.
  f_equal. apply add_techs_blank.
  unfold tech_list. simpl. rewrite app_nil_r. unfold row_techs. simpl.
  apply Forall_forall. intros t Ht. apply in_map_iff in Ht.
  destruct Ht as (p & <- & Hp).
  apply normalize_nonword, strip_Forall.
  pose proof (split_Forall nonword ";"%char v H) as Hs.
  rewrite Forall_forall in Hs. apply Hs, Hp.
Qed.

End BlankRows.

(** ** Claims on the synonym index *)

(** C1, as the code has it: for every input, every canonical key of the
    index maps to a non-empty variation list, which holds the key itself,
    and the canonical keys are pairwise distinct.  Two keys may share a
    variation, as iPhone and iPad share iOS in the seed. *)
Theorem get_technologies_variations_nonempty (df : list cell) :
  variations_nonempty (get_technologies df) /\
  Forall (fun e => In (fst e) (snd e)) (get_technologies df) /\
  NoDup (Dict.keys (get_technologies df)).
Proof.
  pose proof seed_entries_own_key as Hs. rewrite Forall_forall in Hs.
  assert (H : forall e, In e (get_technologies df) ->
                        snd e <> [] /\ In (fst e) (snd e)).
  { destruct (get_technologies_spec df) as (news & -> & _).
    intros e He. apply in_app_or in He. destruct He as [He|He].
    - apply Hs, He.
    - apply in_map_iff in He. destruct He as (n & <- & _).
      simpl. split; [discriminate | auto]. }
  split; [|split].
  - intros k vs Hk. apply (H (k, vs) Hk).
  - apply Forall_forall. intros e He. apply (H e He).
  - apply get_technologies_keys_NoDup.
Qed.

(** C1 fails as stated: with no row at all, the index is the seed, where
    the keys iPhone and iPad both list the variation iOS. *)
Lemma seed_keys_share_a_variation :
  ~ (variations_nonempty (get_technologies []) /\
     variations_disjoint_ci (get_technologies [])).
Proof.
  intros [_ H].
  specialize (H (lit "iPhone") [lit "iPhone"; lit "iOS"]
                (lit "iPad") [lit "iPad"; lit "iOS"]
                (lit "iOS") (lit "iOS")).
  assert (E : str_eqb_ci (lit "iOS") (lit "iOS") = false).
  { apply H; simpl; auto 6; discriminate. }
  vm_compute in E. discriminate.
Qed.

(** C2, as the code has it: a normalized name becomes a new entry, with
    itself as key and sole variation, exactly when it is not empty and not
    yet a canonical key; otherwise the dictionary stays as it is.  Over a
    whole run the seed entries stay in front and each such name is
    inserted once. *)
Theorem get_technologies_inserts_new_keys :
  (forall (m : Dict.t (list str)) (tech : str),
      (normalize tech <> [] /\ ~ In (normalize tech) (Dict.keys m) ->
       add_tech m tech = m ++ [discovered_entry (normalize tech)]) /\
      (normalize tech = [] \/ In (normalize tech) (Dict.keys m) ->
       add_tech m tech = m)) /\
  (forall df : list cell,
      exists news,
        get_technologies df = synonym_seed ++ map discovered_entry news /\
        NoDup news /\
        forall n, In n news <->
                  (In n (map normalize (tech_list df)) /\ n <> [] /\
                   ~ In n (Dict.keys synonym_seed))).
Proof.
  split; [|exact get_technologies_spec].
  intros m tech. rewrite add_tech_step. split.
  - intros [Hne Hk].
    apply nonempty_true in Hne. apply DictFacts.not_mem_keys in Hk.
    rewrite Hne, Hk. reflexivity.
  - intros [He|Hk].
    + rewrite He. reflexivity.
    + apply DictFacts.mem_keys in Hk. rewrite Hk, andb_false_r. reflexivity.
Qed.

Lemma get_technologies_inserts_new_keys_witness :
  add_tech synonym_seed (lit " A.I. ")
  = synonym_seed ++ [discovered_entry (lit "AI")] /\
  add_tech synonym_seed (lit "iPad!") = synonym_seed.
Proof.
  split.
  - apply (proj1 (proj1 get_technologies_inserts_new_keys
                    synonym_seed (lit " A.I. "))).
    split; [vm_compute; discriminate|].
    vm_compute. intuition discriminate.
  - apply (proj2 (proj1 get_technologies_inserts_new_keys
                    synonym_seed (lit "iPad!"))).
    right. vm_compute. auto.
Defined.

(** C2 fails as stated: macOS is a variation of the seed entry Mac, and
    the row [macOS] still makes it a canonical key of its own. *)
Lemma variation_is_inserted_as_key :
  ~ spec_insertion_rule synonym_seed (lit "macOS").
Proof.
  unfold spec_insertion_rule. intros [H _].
  assert (E : add_tech synonym_seed (lit "macOS")
              = synonym_seed ++ [discovered_entry (normalize (lit "macOS"))])
    by (vm_compute; reflexivity).
  destruct (H E) as [_ Hv]. apply Hv.
  exists (lit "Mac"), [lit "Mac"; lit "macOS"; lit "MacBook"].
  split; [left; reflexivity | right; left; reflexivity].
Qed.

(** C4 at the failing input: a missing cell arrives as NaN, [str] turns it
    into the text [nan], and [nan] becomes a canonical key of the index,
    wherever the row stands. *)
Theorem missing_row_adds_nan :
  get_technologies [CellNaN] = synonym_seed ++ [discovered_entry (lit "nan")]
  /\ forall pre post : list cell,
      In (lit "nan") (Dict.keys (get_technologies (pre ++ CellNaN :: post))).
Proof.
  split; [vm_compute; reflexivity|].
  intros pre post.
  destruct (get_technologies_spec (pre ++ CellNaN :: post))
    as (news & -> & _ & Hin).
  rewrite keys_app_discovered. apply in_or_app. right.
  apply Hin. split; [|split].
  - rewrite tech_list_app, map_app. apply in_or_app. right.
    simpl. left. vm_compute. reflexivity.
  - discriminate.
  - vm_compute. intuition discriminate.
Qed.

(** C8: two runs on the same rows yield the same index, also when compared
    without regard to order, and running the normalization loop again over
    the index a run returned changes nothing. *)
Theorem get_technologies_idempotent (df : list cell) :
  let first := get_technologies df in
  let second := get_technologies df in
  first = second /\ same_index first second /\
  add_techs first (tech_list df) = first.
Proof.
  simpl. split; [reflexivity|]. split; [apply same_index_refl|].
  destruct (add_techs_spec (tech_list df) (get_technologies df))
    as (news' & -> & _ & Hin').
  destruct (get_technologies_spec df) as (news & E & _ & Hin).
  destruct news' as [|n r]; [apply app_nil_r|exfalso].
  destruct (proj1 (Hin' n) (or_introl eq_refl)) as (Hn & Hn0 & Hnk).
  apply Hnk. rewrite E, keys_app_discovered. apply in_or_app.
  destruct (in_dec (list_eq_dec ascii_dec) n (Dict.keys synonym_seed));
    [left; assumption|right].
  apply Hin. auto.
Qed.

(** ** The pattern *)

Module ReFacts.

Lemma find_seq_Some (f : nat -> bool) (n a i : nat) :
  find f (seq a n) = Some i ->
  f i = true /\ a <= i < a + n /\ forall j, a <= j < i -> f j = false.
Proof.
  revert a. induction n as [|n IH]; intros a; simpl; [discriminate|].
  destruct (f a) eqn:Fa.
  - intros E; injection E as <-. repeat split; auto; lia.
  - intros E. apply IH in E. destruct E as (Hi & Hr & Hj).
    repeat split; auto; try lia.
    intros j Hlt. destruct (Nat.eq_dec j a) as [->|Hne]; auto.
    apply Hj; lia.
Qed.

Lemma find_seq_None (f : nat -> bool) (n a : nat) :
  find f (seq a n) = None -> forall j, a <= j < a + n -> f j = false.
Proof.
  revert a. induction n as [|n IH]; intros a; simpl; [intros; lia|].
  destruct (f a) eqn:Fa; [discriminate|].
  intros E j Hj. destruct (Nat.eq_dec j a) as [->|Hne]; auto.
  eapply IH; [exact E | lia].
Qed.

Lemma word_at_lt (document : str) (i : nat) :
  Re.word_at document i = true -> i < length document.
Proof.
  unfold Re.word_at. destruct (nth_error document i) eqn:E;
    [|discriminate].
  intros _. apply nth_error_Some. congruence.
Qed.

Lemma boundary_le (document : str) (i : nat) :
  Re.boundary document i = true -> i <= length document.
Proof.
  unfold Re.boundary. intros H.
  destruct (Re.word_at document i) eqn:E.
  - apply word_at_lt in E. lia.
  - rewrite xorb_false_r in H. destruct i; simpl in H; [lia|].
    apply word_at_lt in H. lia.
Qed.

Lemma prefix_ci_length (pat text : str) :
  Re.prefix_ci pat text = true -> length pat <= length text.
Proof.
  revert text. induction pat as [|p pat IH]; intros [|c text]; simpl;
    try lia; try discriminate.
  rewrite andb_true_iff. intros [_ H]. apply IH in H. lia.
Qed.

(** A match lies inside the document. *)
Lemma match_at_inside (variation document : str) (i : nat) :
  Re.match_at variation document i = true ->
  i + length variation <= length document.
Proof.
  unfold Re.match_at. rewrite !andb_true_iff. intros [[Hb Hp] _].
  apply boundary_le in Hb. apply prefix_ci_length in Hp.
  rewrite length_skipn in Hp. lia.
Qed.

Lemma first_match_Some (variation document : str) (m : nat * nat) :
  Re.first_match variation document = Some m ->
  snd m = fst m + length variation /\
  Re.match_at variation document (fst m) = true /\
  forall j, j < fst m -> Re.match_at variation document j = false.
Proof.
  unfold Re.first_match.
  destruct (find _ _) as [i|] eqn:E; [|discriminate].
  intros H; injection H as <-. simpl.
  apply find_seq_Some in E. destruct E as (Hi & _ & Hj).
  repeat split; auto. intros j Hlt. apply Hj. lia.
Qed.

Lemma first_match_None (variation document : str) :
  Re.first_match variation document = None ->
  unmatched document variation.
Proof.
  unfold Re.first_match, unmatched.
  destruct (find _ _) as [i|] eqn:E; [discriminate|].
  intros _ j.
  destruct (Re.match_at variation document j) eqn:M; [|reflexivity].
  apply match_at_inside in M as Hin.
  rewrite <- M. eapply find_seq_None; [exact E | lia].
Qed.

(** The first match is the leftmost of the match positions. *)
Lemma first_match_leftmost (variation document : str) :
  Re.first_match variation document
  = match Re.match_positions variation document with
    | i :: _ => Some (i, i + length variation)
    | [] => None
    end.
Proof.
  unfold Re.first_match, Re.match_positions.
  induction (seq 0 (S (length document))) as [|a l IH]; simpl;
    [reflexivity|].
  destruct (Re.match_at variation document a); auto.
Qed.

End ReFacts.

(** ** The loops of [find_context] *)

(** Whatever holds before the loop over the variations of one entry and is
    kept by starting a search and by storing the context of a match, holds
    after it. *)
Lemma scan_variations_ind (P : store -> Prop) (document : str) (window : Z)
    (k : str) (vs : list str) :
  (forall h v, In v vs -> P h -> P (log_search k v h)) ->
  (forall h v i, In v vs -> Re.match_at v document i = true -> P h ->
                 P (set_mention k (context document window (i, i + length v)) h)) ->
  forall h, P h -> P (scan_variations document window k vs h).
Proof.
  induction vs as [|v rest IH]; intros Hlog Hset h Hh; simpl; [exact Hh|].
  assert (Hs : P (scan_matches document window k v h)).
  { unfold scan_matches.
    destruct (Re.first_match v document) as [m|] eqn:F.
    - apply ReFacts.first_match_Some in F. destruct F as (He & Hm & _).
      destruct m as [i e]; simpl in *; subst e.
      apply Hset; simpl; auto.
    - apply Hlog; simpl; auto. }
  destruct (Dict.mem k _); [exact Hs|].
  apply IH; auto.
  - intros h' v' Hv'. apply Hlog. simpl; auto.
  - intros h' v' i Hv'. apply Hset. simpl; auto.
Qed.

(** The same for the loop over the entries. *)
Lemma scan_entries_ind (P : store -> Prop) (document : str) (window : Z)
    (technologies : Dict.t (list str)) :
  (forall h k vs v, In (k, vs) technologies -> In v vs -> P h ->
                    P (log_search k v h)) ->
  (forall h k vs v i, In (k, vs) technologies -> In v vs ->
                      Re.match_at v document i = true -> P h ->
                      P (set_mention k
                           (context document window (i, i + length v)) h)) ->
  forall todo h, incl todo technologies -> P h ->
                 P (fold_left (scan_entry document window) todo h).
Proof.
  intros Hlog Hset.
  induction todo as [|[k vs] todo IH]; intros h Hincl Hh; simpl; [exact Hh|].
  assert (Hk : In (k, vs) technologies) by (apply Hincl; simpl; auto).
  apply IH.
  - intros e He. apply Hincl. simpl; auto.
  - unfold scan_entry. simpl. apply scan_variations_ind; eauto.
Qed.

Lemma find_context_ind (P : store -> Prop) (document : str) (window : Z)
    (technologies : Dict.t (list str)) :
  (forall h k vs v, In (k, vs) technologies -> In v vs -> P h ->
                    P (log_search k v h)) ->
  (forall h k vs v i, In (k, vs) technologies -> In v vs ->
                      Re.match_at v document i = true -> P h ->
                      P (set_mention k
                           (context document window (i, i + length v)) h)) ->
  P {| st_technologies := technologies; st_mentions := [];
       st_searches := [] |} ->
  P (find_context_store document technologies window).
Proof.
  intros Hlog Hset H0. unfold find_context_store.
  apply scan_entries_ind with (technologies := technologies); auto.
  apply incl_refl.
Qed.

Lemma find_context_justified (document : str)
    (technologies : Dict.t (list str)) (window : Z) :
  Forall (justified document technologies window)
    (find_context document technologies window).
Proof.
  unfold find_context.
  apply find_context_ind
    with (P := fun h => Forall (justified document technologies window)
                          (st_mentions h)).
  - intros h k vs v _ _ H. exact H.
  - intros h k vs v i Hk Hv Hm H. simpl.
    apply DictFacts.set_Forall; [exact H|].
    exists vs, v, i. auto.
  - constructor.
Qed.

Lemma find_context_keeps_index (document : str)
    (technologies : Dict.t (list str)) (window : Z) :
  st_technologies (find_context_store document technologies window)
  = technologies.
Proof.
  apply find_context_ind
    with (P := fun h => st_technologies h = technologies); auto.
Qed.

Lemma set_keys_NoDup {V} (k : str) (v : V) (d : Dict.t V) :
  NoDup (Dict.keys d) -> NoDup (Dict.keys (Dict.set k v d)).
Proof.
  intros H. rewrite DictFacts.keys_set.
  destruct (Dict.mem k d) eqn:E; [exact H|].
  apply DictFacts.not_mem_keys in E.
  apply NoDup_app; [exact H | repeat constructor; simpl; tauto |].
  intros a Ha [<-|[]]. contradiction.
Qed.

Lemma find_context_keys_NoDup (document : str)
    (technologies : Dict.t (list str)) (window : Z) :
  NoDup (Dict.keys (find_context document technologies window)).
Proof.
  unfold find_context.
  apply find_context_ind
    with (P := fun h => NoDup (Dict.keys (st_mentions h))).
  - intros h k vs v _ _ H. exact H.
  - intros h k vs v i _ _ _ H. simpl. apply set_keys_NoDup, H.
  - constructor.
Qed.

(** ** Context windows *)

(** A slice is a piece of the string it is taken from, whatever its
    bounds. *)
Lemma slice_occurs (document : str) (i j : Z) :
  occurs_in (Py.slice document i j) document.
Proof.
  unfold occurs_in, Py.slice.
  exists (firstn (Py.slice_bound document i) document).
  exists (skipn (Py.slice_bound document j - Py.slice_bound document i)
            (skipn (Py.slice_bound document i) document)).
  rewrite firstn_skipn, firstn_skipn. reflexivity.
Qed.

(** With a radius that is not negative, the window around a match is the
    interval from [start] to [end], inside the document, and no longer than
    the match and a radius on each side. *)
Lemma context_window (document variation : str) (window : Z) (i : nat) :
  (0 <= window)%Z ->
  i + length variation <= length document ->
  let start := Z.max 0 (Z.of_nat i - window) in
  let end_ :=
    Z.min (Py.len document) (Z.of_nat (i + length variation) + window) in
  let ctx := context document window (i, i + length variation) in
  (0 <= start <= end_)%Z /\ (end_ <= Py.len document)%Z /\
  ctx = firstn (Z.to_nat (end_ - start)) (skipn (Z.to_nat start) document) /\
  Py.len ctx = (end_ - start)%Z /\
  (Py.len ctx <= 2 * window + Py.len variation)%Z.
Proof.
  intros Hw Hin start end_ ctx.
  assert (Hs : (0 <= start <= end_)%Z) by (unfold start, end_, Py.len; lia).
  assert (He : (end_ <= Py.len document)%Z) by (unfold end_; lia).
  assert (Hctx : ctx = firstn (Z.to_nat (end_ - start))
                         (skipn (Z.to_nat start) document)).
  { unfold ctx, context, Py.slice, Py.slice_bound. simpl fst; simpl snd.
    fold start. fold end_.
    destruct (Z.ltb_spec start 0); [lia|].
    destruct (Z.ltb_spec end_ 0); [lia|].
    rewrite !Z.min_l by lia. rewrite Z2Nat.inj_sub by lia. reflexivity. }
  assert (Hlen : Py.len ctx = (end_ - start)%Z).
  { rewrite Hctx. unfold Py.len in *. rewrite length_firstn, length_skipn.
    lia. }
  repeat split; try lia; auto.
  rewrite Hlen. unfold start, end_, Py.len. lia.
Qed.

(** A negative [window] is no radius: the bounds cross, or the end bound
    falls below zero and then counts from the end of the document. *)
Example negative_window_slices :
  context (lit "0123456789") (-1) (4, 5) = lit "" /\
  context (lit "0123456789") (-3) (1, 2) = lit "45678".
Proof. split; reflexivity. Qed.

(** ** Claims on the mention locator *)

(** C6: for a window radius that is not negative, the window stored for an
    entity is the slice from [max(0, match.start() - window)] to
    [min(len(document), match.end() + window)] around a match of one of its
    variations; both bounds lie in the document, the start is not negative
    and the length is at most twice the radius plus the length of the
    matched variation. *)
Theorem find_context_window_bounds (document : str)
    (technologies : Dict.t (list str)) (window : Z) (k ctx : str) :
  (0 <= window)%Z ->
  Dict.get k (find_context document technologies window) = Some ctx ->
  exists vs v i,
    In (k, vs) technologies /\ In v vs /\
    Re.match_at v document i = true /\
    let start := Z.max 0 (Z.of_nat i - window) in
    let end_ := Z.min (Py.len document) (Z.of_nat (i + length v) + window) in
    (0 <= start <= end_)%Z /\ (end_ <= Py.len document)%Z /\
    ctx = firstn (Z.to_nat (end_ - start)) (skipn (Z.to_nat start) document)
    /\ Py.len ctx = (end_ - start)%Z /\
    (Py.len ctx <= 2 * window + Py.len v)%Z.
Proof.
  intros Hw Hget. apply DictFacts.get_In in Hget.
  pose proof (find_context_justified document technologies window) as J.
  rewrite Forall_forall in J. destruct (J _ Hget) as (vs & v & i & H).
  simpl in H. destruct H as (Hk & Hv & Hm & ->).
  exists vs, v, i. repeat split; auto;
    apply (context_window document v window i Hw
             (ReFacts.match_at_inside _ _ _ Hm)).
Qed.

Lemma no_match_no_mention (document : str)
    (technologies : Dict.t (list str)) (window : Z) (k : str) :
  (forall vs v, In (k, vs) technologies -> In v vs ->
                unmatched document v) ->
  Dict.get k (find_context document technologies window) = None.
Proof.
  intros Hno.
  destruct (Dict.get k (find_context document technologies window))
    as [ctx|] eqn:E; [exfalso|reflexivity].
  apply DictFacts.get_In in E.
  pose proof (find_context_justified document technologies window) as J.
  rewrite Forall_forall in J.
  destruct (J _ E) as (vs & v & i & Hk & Hv & Hm & _). simpl in Hk.
  rewrite (Hno vs v Hk Hv i) in Hm. discriminate.
Qed.

(** C9: an entity none of whose variations has a match in the document has
    no entry in the mapping [find_context] returns; the function returns
    its mapping all the same. *)
Theorem find_context_absent (document : str)
    (technologies : Dict.t (list str)) (window : Z) (k : str) :
  (forall vs v, In (k, vs) technologies -> In v vs ->
                unmatched document v) ->
  Dict.get k (find_context document technologies window) = None /\
  incl (Dict.keys (find_context document technologies window))
       (remove (list_eq_dec ascii_dec) k (Dict.keys technologies)).
Proof.
  intros Hno.
  pose proof (no_match_no_mention document technologies window k Hno) as E.
  split; [exact E|].
  intros k' Hk'. apply in_in_remove.
  - intros ->. apply DictFacts.get_None in E. contradiction.
  - pose proof (find_context_justified document technologies window) as J.
    rewrite Forall_forall in J.
    apply in_map_iff in Hk'. destruct Hk' as ([k0 ctx] & <- & Hk').
    destruct (J _ Hk') as (vs & _ & _ & Hin & _).
    apply DictFacts.In_keys in Hin. exact Hin.
Qed.

(** C10: every key of the mapping is a canonical key of the index, every
    value is a contiguous piece of the document, and the index is, when
    [find_context] returns, the one it was given.  The document is a
    string, which nothing can change. *)
Theorem find_context_reads_only (document : str)
    (technologies : Dict.t (list str)) (window : Z) :
  incl (Dict.keys (find_context document technologies window))
       (Dict.keys technologies) /\
  Forall (fun mention => occurs_in (snd mention) document)
         (find_context document technologies window) /\
  st_technologies (find_context_store document technologies window)
  = technologies.
Proof.
  pose proof (find_context_justified document technologies window) as J.
  rewrite Forall_forall in J.
  split; [|split].
  - intros k Hk. apply in_map_iff in Hk. destruct Hk as ([k' ctx] & <- & Hk).
    destruct (J _ Hk) as (vs & _ & _ & Hin & _).
    apply DictFacts.In_keys in Hin. exact Hin.
  - apply Forall_forall. intros [k ctx] Hm.
    destruct (J _ Hm) as (_ & v & i & _ & _ & _ & ->).
    apply slice_occurs.
  - apply find_context_keeps_index.
Qed.

(** ** First match wins *)

Lemma searches_of_app (k : str) (h : store) (t : Dict.t (list str))
    (m : Dict.t str) (more : list (str * str)) :
  searches_of k {| st_technologies := t;
                   st_mentions := m;
                   st_searches := st_searches h ++ more |}
  = searches_of k h
    ++ map snd (filter (fun p => str_eqb (fst p) k) more).
Proof.
  unfold searches_of. simpl. rewrite filter_app, map_app. reflexivity.
Qed.

Lemma searches_same_key (k : str) (vs : list str) :
  map snd (filter (fun p => str_eqb (fst p) k) (map (pair k) vs)) = vs.
Proof.
  induction vs as [|v vs IH]; simpl; [reflexivity|].
  rewrite str_eqb_refl. simpl. rewrite IH. reflexivity.
Qed.

Lemma searches_other_key (k k' : str) (vs : list str) :
  k' <> k ->
  map snd (filter (fun p => str_eqb (fst p) k) (map (pair k') vs)) = [].
Proof.
  intros Hne. apply str_eqb_neq in Hne.
  induction vs as [|v vs IH]; simpl; [reflexivity|].
  rewrite Hne. exact IH.
Qed.

Lemma searches_of_none (k : str) (h : store) :
  (forall v, ~ In (k, v) (st_searches h)) -> searches_of k h = [].
Proof.
  unfold searches_of.
  induction (st_searches h) as [|[k' v'] l IH]; intros H; simpl;
    [reflexivity|].
  destruct (str_eqb k' k) eqn:E.
  - apply str_eqb_eq in E; subst. exfalso. apply (H v'). simpl; auto.
  - apply IH. intros v Hv. apply (H v). simpl; auto.
Qed.

(** The loop over the variations of an entity that has no mention yet. *)
Lemma scan_variations_fresh (document : str) (window : Z) (k : str) :
  forall (vs : list str) (h : store),
    Dict.mem k (st_mentions h) = false ->
    (exists pre v post i,
        vs = pre ++ v :: post /\
        (forall u, In u pre -> unmatched document u) /\
        Re.match_at v document i = true /\
        (forall j, j < i -> Re.match_at v document j = false) /\
        scan_variations document window k vs h
        = {| st_technologies := st_technologies h;
             st_mentions :=
               st_mentions h
               ++ [(k, context document window (i, i + length v))];
             st_searches := st_searches h ++ map (pair k) (pre ++ [v]) |})
    \/
    ((forall u, In u vs -> unmatched document u) /\
     scan_variations document window k vs h
     = {| st_technologies := st_technologies h;
          st_mentions := st_mentions h;
          st_searches := st_searches h ++ map (pair k) vs |}).
Proof.
  induction vs as [|v rest IH]; intros h Hfresh.
  - right. split; [intros u []|]. simpl. rewrite app_nil_r.
    destruct h; reflexivity.
  - simpl. unfold scan_matches.
    destruct (Re.first_match v document) as [[i e]|] eqn:F.
    + apply ReFacts.first_match_Some in F. simpl in F.
      destruct F as (-> & Hm & Hleft).
      left. exists [], v, rest, i.
      split; [reflexivity|]. split; [intros u []|].
      split; [exact Hm|]. split; [exact Hleft|].
      unfold set_mention, log_search. simpl.
      rewrite DictFacts.set_fresh by exact Hfresh.
      unfold Dict.mem. rewrite DictFacts.get_app.
      unfold Dict.mem in Hfresh.
      destruct (Dict.get k (st_mentions h)); [discriminate|].
      simpl. rewrite str_eqb_refl. reflexivity.
    + apply ReFacts.first_match_None in F.
      simpl st_mentions. rewrite Hfresh.
      destruct (IH (log_search k v h) Hfresh)
        as [(pre & v' & post & i & -> & Hpre & Hm & Hleft & ->)
           | (Hall & ->)].
      * left. exists (v :: pre), v', post, i.
        split; [reflexivity|].
        split; [intros u [<-|Hu]; auto|].
        split; [exact Hm|]. split; [exact Hleft|].
        simpl. rewrite <- app_assoc. reflexivity.
      * right. split; [intros u [<-|Hu]; auto|].
        simpl. rewrite <- app_assoc. reflexivity.
Qed.

Lemma first_match_wins_frame (document : str) (window : Z) (k : str)
    (vs : list str) (h h' : store) :
  Dict.get k (st_mentions h') = Dict.get k (st_mentions h) ->
  searches_of k h' = searches_of k h ->
  first_match_wins document window k vs h ->
  first_match_wins document window k vs h'.
Proof.
  intros Eg Es [(pre & v & post & i & H1 & H2 & H3 & H4 & H5 & H6)
               | (H1 & H2 & H3)].
  - left. exists pre, v, post, i. rewrite Eg, Es. auto 7.
  - right. rewrite Eg, Es. auto.
Qed.

Lemma get_app_other {V} (k k' : str) (v : V) (d : Dict.t V) :
  k <> k' -> Dict.get k (d ++ [(k', v)]) = Dict.get k d.
Proof.
  intros Hne. rewrite DictFacts.get_app.
  destruct (Dict.get k d); [reflexivity|].
  simpl. apply str_eqb_neq in Hne. rewrite Hne. reflexivity.
Qed.

Lemma keys_snoc {V} (k : str) (v : V) (d : Dict.t V) :
  Dict.keys (d ++ [(k, v)]) = Dict.keys d ++ [k].
Proof. unfold Dict.keys. rewrite map_app. reflexivity. Qed.

(** One more entry, with a key not seen before. *)
Lemma scan_entry_step (document : str) (window : Z)
    (done : Dict.t (list str)) (k : str) (vs : list str) (h : store) :
  ~ In k (Dict.keys done) ->
  scanned_prefix document window done h ->
  scanned_prefix document window (done ++ [(k, vs)])
    (scan_variations document window k vs h).
Proof.
  intros Hk (Hm & Hs & Hd).
  assert (Hfresh : Dict.mem k (st_mentions h) = false).
  { apply DictFacts.not_mem_keys. intros C. apply Hk, Hm, C. }
  assert (Hgetk : Dict.get k (st_mentions h) = None).
  { apply DictFacts.get_None. intros C. apply Hk, Hm, C. }
  assert (Hnos : searches_of k h = []).
  { apply searches_of_none. intros v Hv. apply Hk, (Hs k v Hv). }
  assert (Hlog : forall X k0 v0,
             In (k0, v0) (st_searches h ++ map (pair k) X) ->
             In k0 (Dict.keys (done ++ [(k, vs)]))).
  { intros X k0 v0 Hin. rewrite keys_snoc. apply in_or_app.
    apply in_app_or in Hin. destruct Hin as [Hin|Hin].
    - left. apply (Hs k0 v0 Hin).
    - right. apply in_map_iff in Hin. destruct Hin as (x & E & _).
      injection E as <- _. simpl; auto. }
  assert (Hold : forall k0 vs0, In (k0, vs0) done -> k0 <> k).
  { intros k0 vs0 Hin ->. apply Hk. apply DictFacts.In_keys in Hin.
    exact Hin. }
  destruct (scan_variations_fresh document window k vs h Hfresh)
    as [(pre & v & post & i & Evs & Hpre & Hmatch & Hleft & ->)
       | (Hall & ->)].
  - split; [|split].
    + simpl. intros k0. rewrite !keys_snoc, !in_app_iff.
      intros [H|H]; [left; apply Hm, H | right; exact H].
    + simpl. apply Hlog.
    + intros k0 vs0 Hin. apply in_app_or in Hin. destruct Hin as [Hin|Hin].
      * apply first_match_wins_frame with (h := h); [| |apply Hd, Hin].
        -- simpl. apply get_app_other. apply (Hold k0 vs0 Hin).
        -- rewrite searches_of_app, searches_other_key, app_nil_r;
             [reflexivity|].
           intros E. apply (Hold k0 vs0 Hin). congruence.
      * destruct Hin as [E|[]]. injection E as <- <-.
        left. exists pre, v, post, i.
        split; [exact Evs|]. split; [exact Hpre|].
        split; [exact Hmatch|]. split; [exact Hleft|].
        split.
        -- simpl. rewrite DictFacts.get_app, Hgetk. simpl.
           rewrite str_eqb_refl. reflexivity.
        -- rewrite searches_of_app, Hnos, searches_same_key. reflexivity.
  - split; [|split].
    + simpl. intros k0 H. rewrite keys_snoc. apply in_or_app. left.
      apply Hm, H.
    + simpl. apply Hlog.
    + intros k0 vs0 Hin. apply in_app_or in Hin. destruct Hin as [Hin|Hin].
      * apply first_match_wins_frame with (h := h); [| |apply Hd, Hin].
        -- reflexivity.
        -- rewrite searches_of_app, searches_other_key, app_nil_r;
             [reflexivity|].
           intros E. apply (Hold k0 vs0 Hin). congruence.
      * destruct Hin as [E|[]]. injection E as <- <-.
        right. split; [exact Hall|]. split; [exact Hgetk|].
        rewrite searches_of_app, Hnos, searches_same_key. reflexivity.
Qed.

Lemma scan_entries_first_match (document : str) (window : Z) :
  forall (todo done : Dict.t (list str)) (h : store),
    NoDup (Dict.keys (done ++ todo)) ->
    scanned_prefix document window done h ->
    scanned_prefix document window (done ++ todo)
      (fold_left (scan_entry document window) todo h).
Proof.
  induction todo as [|[k vs] todo IH]; intros done h Hnd Hp; simpl.
  - rewrite app_nil_r. exact Hp.
  - change (done ++ (k, vs) :: todo) with (done ++ [(k, vs)] ++ todo) in *.
    rewrite app_assoc in *. apply IH; [exact Hnd|].
    unfold scan_entry. simpl. apply scan_entry_step; [|exact Hp].
    unfold Dict.keys in Hnd. rewrite !map_app in Hnd. simpl in Hnd.
    rewrite <- app_assoc in Hnd. apply NoDup_remove_2 in Hnd.
    intros C. apply Hnd. apply in_or_app. left. exact C.
Qed.

Lemma find_context_entry (document : str)
    (technologies : Dict.t (list str)) (window : Z) :
  NoDup (Dict.keys technologies) ->
  forall k vs, In (k, vs) technologies ->
               first_match_wins document window k vs
                 (find_context_store document technologies window).
Proof.
  intros Hnd.
  apply (scan_entries_first_match document window technologies [] _ Hnd).
  split; [|split]; simpl; tauto.
Qed.

(** C5: for an index with distinct keys, the mapping has at most one
    mention for each canonical entity, and for each entry it is the
    leftmost match of the first variation, in list order, that has a match;
    the searches started for the entity stop with that variation. *)
Theorem find_context_first_match_wins (document : str)
    (technologies : Dict.t (list str)) (window : Z) :
  NoDup (Dict.keys technologies) ->
  NoDup (Dict.keys (find_context document technologies window)) /\
  forall k vs, In (k, vs) technologies ->
               first_match_wins document window k vs
                 (find_context_store document technologies window).
Proof.
  intros Hnd. split; [apply find_context_keys_NoDup|].
  apply find_context_entry, Hnd.
Qed.

(** ** Whole words *)

Lemma same_ci_rev (a b : str) : same_ci a b -> same_ci (rev a) (rev b).
Proof.
  induction 1 as [|x y a b Hxy _ IH]; simpl; [constructor|].
  apply Forall2_app; [exact IH | repeat constructor; exact Hxy].
Qed.

Lemma same_ci_starts (a b : str) :
  same_ci a b -> starts_with_word b = starts_with_word a.
Proof.
  destruct 1 as [|x y a b Hxy _]; simpl; [reflexivity|].
  symmetry. apply eq_ci_is_word, Hxy.
Qed.

Lemma same_ci_ends (a b : str) :
  same_ci a b -> ends_with_word b = ends_with_word a.
Proof. intros H. apply same_ci_starts, same_ci_rev, H. Qed.

Lemma starts_with_word_app (a b : str) :
  starts_with_word a = true -> starts_with_word (a ++ b) = true.
Proof. destruct a; simpl; [discriminate | auto]. Qed.

Lemma ends_with_word_app (a b : str) :
  ends_with_word b = true -> ends_with_word (a ++ b) = true.
Proof.
  unfold ends_with_word. rewrite rev_app_distr. apply starts_with_word_app.
Qed.

Lemma word_at_split (pre rest : str) :
  Re.word_at (pre ++ rest) (length pre) = starts_with_word rest.
Proof.
  unfold Re.word_at.
  rewrite nth_error_app2 by lia. rewrite Nat.sub_diag.
  destruct rest; reflexivity.
Qed.

Lemma word_before_split (pre rest : str) :
  Re.word_before (pre ++ rest) (length pre) = ends_with_word pre.
Proof.
  destruct pre as [|c pre] using rev_ind; [reflexivity|].
  rewrite length_app, Nat.add_comm. simpl.
  rewrite <- app_assoc, word_at_split.
  unfold ends_with_word. rewrite rev_app_distr. reflexivity.
Qed.

Lemma boundary_split (pre rest : str) :
  Re.boundary (pre ++ rest) (length pre)
  = xorb (ends_with_word pre) (starts_with_word rest).
Proof.
  unfold Re.boundary. rewrite word_before_split, word_at_split. reflexivity.
Qed.

Lemma prefix_ci_split (pat text : str) :
  Re.prefix_ci pat text = true <->
  exists mid post, text = mid ++ post /\ same_ci pat mid.
Proof.
  revert text. induction pat as [|p pat IH]; intros text; simpl.
  - split; [|reflexivity]. intros _. exists [], text. split; [reflexivity|].
    constructor.
  - destruct text as [|c text].
    + split; [discriminate|]. intros (mid & post & E & H).
      inversion H; subst. discriminate.
    + rewrite andb_true_iff, IH. split.
      * intros (Hc & mid & post & -> & H).
        exists (c :: mid), post. split; [reflexivity|]. constructor; auto.
      * intros (mid & post & E & H). inversion H; subst.
        injection E as -> ->. eauto.
Qed.

(** A match at [i] cuts the document in three: what is before [i], a
    spelling of the variation, and the rest, with a word boundary on both
    sides of the middle piece. *)
Lemma match_at_split (variation document : str) (i : nat) :
  Re.match_at variation document i = true <->
  exists pre mid post,
    document = pre ++ mid ++ post /\ length pre = i /\
    same_ci variation mid /\
    xorb (ends_with_word pre) (starts_with_word (mid ++ post)) = true /\
    xorb (ends_with_word (pre ++ mid)) (starts_with_word post) = true.
Proof.
  split.
  - intros M. pose proof (ReFacts.match_at_inside _ _ _ M) as Hin.
    unfold Re.match_at in M. rewrite !andb_true_iff in M.
    destruct M as [[Hb Hp] He].
    apply prefix_ci_split in Hp. destruct Hp as (mid & post & Es & Hci).
    assert (Ed : document = firstn i document ++ mid ++ post).
    { rewrite <- Es. symmetry. apply firstn_skipn. }
    assert (El : length (firstn i document) = i).
    { rewrite length_firstn. lia. }
    exists (firstn i document), mid, post.
    split; [exact Ed|]. split; [exact El|]. split; [exact Hci|].
    split.
    + rewrite <- boundary_split, <- Ed, El. exact Hb.
    + rewrite <- boundary_split, <- app_assoc, <- Ed, length_app, El.
      rewrite <- (same_ci_length _ _ Hci). exact He.
  - intros (pre & mid & post & -> & <- & Hci & Hb & He).
    unfold Re.match_at. rewrite !andb_true_iff. split; [split|].
    + rewrite boundary_split. exact Hb.
    + apply prefix_ci_split. exists mid, post. split; [|exact Hci].
      rewrite skipn_app, Nat.sub_diag, skipn_all. reflexivity.
    + rewrite (same_ci_length _ _ Hci), <- length_app, app_assoc.
      rewrite boundary_split. exact He.
Qed.

(** For a variation that begins and ends with a word character, a match
    is a spelling of it with no word character next to it. *)
Lemma framed_match_iff (variation document : str) (i : nat) :
  framed variation ->
  (Re.match_at variation document i = true <->
   exists pre mid post,
     document = pre ++ mid ++ post /\ length pre = i /\
     same_ci variation mid /\
     ends_with_word pre = false /\ starts_with_word post = false).
Proof.
  intros [Hs He]. rewrite match_at_split.
  split; intros (pre & mid & post & Ed & El & Hci & H1 & H2);
    exists pre, mid, post; repeat (split; [assumption|]);
    pose proof (same_ci_starts _ _ Hci) as Hs';
    pose proof (same_ci_ends _ _ Hci) as He';
    rewrite Hs in Hs'; rewrite He in He';
    pose proof (starts_with_word_app mid post Hs') as Hs'';
    pose proof (ends_with_word_app pre mid He') as He''.
  - rewrite Hs'' in H1. rewrite He'' in H2.
    destruct (ends_with_word pre), (starts_with_word post);
      simpl in *; auto; discriminate.
  - rewrite Hs'', He'', H1, H2. auto.
Qed.

Lemma framed_matched_iff_standalone (variation document : str) :
  framed variation ->
  ((exists i, Re.match_at variation document i = true) <->
   standalone variation document).
Proof.
  intros F. unfold standalone. split.
  - intros (i & M). apply (framed_match_iff _ document i F) in M.
    destruct M as (pre & mid & post & H1 & _ & H2). eauto.
  - intros (pre & mid & post & H1 & H2).
    exists (length pre). apply (framed_match_iff _ document _ F).
    exists pre, mid, post. auto.
Qed.

Lemma not_standalone_unmatched (variation document : str) :
  framed variation ->
  ~ standalone variation document -> unmatched document variation.
Proof.
  intros F H j.
  destruct (Re.match_at variation document j) eqn:M; [|reflexivity].
  exfalso. apply H, (framed_matched_iff_standalone _ _ F). eauto.
Qed.

(** *** The variations of the index are words *)

Lemma lstrip_head (x : str) : starts_with_space_free (Py.lstrip x).
Proof.
  unfold starts_with_space_free.
  induction x as [|c r IH]; simpl; [reflexivity|].
  destruct (Char.is_space c) eqn:E; [exact IH | exact E].
Qed.

Lemma lstrip_snoc (x : str) (c : ascii) :
  Char.is_space c = false -> Py.lstrip (x ++ [c]) = Py.lstrip x ++ [c].
Proof.
  intros Hc. induction x as [|d r IH]; simpl.
  - rewrite Hc. reflexivity.
  - destruct (Char.is_space d); [exact IH | reflexivity].
Qed.

Lemma rstrip_cons (c : ascii) (x : str) :
  Char.is_space c = false -> Py.rstrip (c :: x) = c :: Py.rstrip x.
Proof.
  intros Hc. unfold Py.rstrip. simpl.
  rewrite lstrip_snoc by exact Hc. rewrite rev_app_distr. reflexivity.
Qed.

(** A stripped string has no space at either end. *)
Lemma strip_ends (x : str) :
  starts_with_space_free (Py.strip x) /\
  starts_with_space_free (rev (Py.strip x)).
Proof.
  unfold Py.strip. split.
  - pose proof (lstrip_head x) as H. unfold starts_with_space_free in *.
    destruct (Py.lstrip x) as [|c r]; [reflexivity|].
    rewrite rstrip_cons by exact H. exact H.
  - unfold Py.rstrip. rewrite rev_involutive. apply lstrip_head.
Qed.

Lemma word_or_space_head (x : str) :
  Forall (fun c => Char.is_word c || Char.is_space c = true) x ->
  x <> [] -> starts_with_space_free x -> starts_with_word x = true.
Proof.
  unfold starts_with_space_free.
  destruct x as [|c r]; [congruence|]. simpl.
  intros H _ Hs. inversion H; subst. rewrite Hs, orb_false_r in *.
  assumption.
Qed.

(** A name that normalizes to something normalizes to a string that
    begins and ends with a word character. *)
Lemma normalize_framed (tech : str) :
  normalize tech <> [] -> framed (normalize tech).
Proof.
  intros Hne. unfold normalize in *.
  set (kept := filter (fun c => Char.is_word c || Char.is_space c) tech) in *.
  assert (Hk : Forall (fun c => Char.is_word c || Char.is_space c = true)
                 (Py.strip kept)).
  { apply strip_Forall. apply Forall_forall. intros c Hc.
    apply filter_In in Hc. tauto. }
  destruct (strip_ends kept) as [Hs He].
  split.
  - apply word_or_space_head; assumption.
  - unfold ends_with_word. apply word_or_space_head.
    + apply Forall_rev, Hk.
    + intros E. apply Hne. rewrite <- (rev_involutive (Py.strip kept)), E.
      reflexivity.
    + exact He.
Qed.

Lemma seed_variations_framed :
  Forall (fun e => Forall framed (snd e)) synonym_seed.
Proof. repeat constructor. Qed.

(** Every variation of the index begins and ends with a word character. *)
Lemma get_technologies_variations_framed (df : list cell) :
  Forall (fun e => Forall framed (snd e)) (get_technologies df).
Proof.
  destruct (get_technologies_spec df) as (news & -> & _ & Hin).
  apply Forall_app. split; [exact seed_variations_framed|].
  apply Forall_forall. intros e He. apply in_map_iff in He.
  destruct He as (n & <- & Hn). simpl.
  apply Hin in Hn. destruct Hn as (Hn & Hne & _).
  apply in_map_iff in Hn. destruct Hn as (t & <- & _).
  repeat constructor; apply normalize_framed, Hne.
Qed.

Lemma framed_iPad : framed (lit "iPad").
Proof. split; reflexivity. Qed.

Lemma framed_iOS : framed (lit "iOS").
Proof. split; reflexivity. Qed.

Lemma iPad_entry (df : list cell) :
  In (lit "iPad", [lit "iPad"; lit "iOS"]) (get_technologies df).
Proof. apply get_technologies_keeps_seed. simpl. auto. Qed.

(** In the sample document iPad stands only inside iPadding. *)
Lemma ipadding_has_no_ipad : ~ standalone (lit "iPad") Sample.doc_ipadding.
Proof.
  intros St. apply (framed_matched_iff_standalone _ _ framed_iPad) in St.
  destruct St as (i & M).
  assert (F : Re.first_match (lit "iPad") Sample.doc_ipadding = None)
    by (vm_compute; reflexivity).
  apply ReFacts.first_match_None in F. rewrite (F i) in M. discriminate.
Qed.

(** C7, as the code has it: matching ignores case and takes whole words: a
    match of a variation that begins and ends with a word character is a
    spelling of it with no word character directly before or after, and
    every variation of an index built by [get_technologies] is of that
    kind.  In a document where iPad is not a word of its own (iPadding or
    not), the variation iPad has no match; with the index of
    [get_technologies] the entity iPad then has no mention exactly when its
    other variation, iOS, is not a word of its own in the document
    either. *)
Theorem whole_word_matching :
  (forall (v document : str) (i : nat),
      framed v -> Re.match_at v document i = true ->
      exists pre mid post,
        document = pre ++ mid ++ post /\ length pre = i /\
        same_ci v mid /\
        ends_with_word pre = false /\ starts_with_word post = false) /\
  (forall df : list cell,
      Forall (fun e => Forall framed (snd e)) (get_technologies df)) /\
  (forall (document : str) (df : list cell) (window : Z),
      ~ standalone (lit "iPad") document ->
      unmatched document (lit "iPad") /\
      (Dict.get (lit "iPad")
         (find_context document (get_technologies df) window) = None
       <-> ~ standalone (lit "iOS") document)).
Proof.
  split; [|split].
  - intros v document i F M. apply (framed_match_iff v document i F), M.
  - exact get_technologies_variations_framed.
  - intros document df window Hpad.
    pose proof (not_standalone_unmatched _ _ framed_iPad Hpad) as Upad.
    split; [exact Upad|].
    pose proof (find_context_entry document (get_technologies df) window
                  (get_technologies_keys_NoDup df) _ _ (iPad_entry df)) as W.
    unfold find_context. split.
    + intros Hnone Hios.
      apply (framed_matched_iff_standalone _ _ framed_iOS) in Hios.
      destruct Hios as (i & M).
      destruct W as [(pre & v & post & j & _ & _ & _ & _ & Hget & _)
                    | (Hall & _)].
      * congruence.
      * rewrite (Hall (lit "iOS")) in M; [discriminate|]. simpl; auto.
    + intros Hios.
      destruct W as [(pre & v & post & j & Evs & _ & M & _)
                    | (_ & Hget & _)]; [exfalso|exact Hget].
      assert (Hv : In v [lit "iPad"; lit "iOS"]).
      { rewrite Evs. apply in_or_app. right. simpl; auto. }
      destruct Hv as [<-|[<-|[]]].
      * rewrite (Upad j) in M. discriminate.
      * apply Hios, (framed_matched_iff_standalone _ _ framed_iOS). eauto.
Qed.

Lemma whole_word_matching_witness :
  unmatched Sample.doc_ipadding (lit "iPad") /\
  (Dict.get (lit "iPad")
     (find_context Sample.doc_ipadding (get_technologies []) default_window)
   = None
   <-> ~ standalone (lit "iOS") Sample.doc_ipadding).
Proof.
  apply (proj2 (proj2 whole_word_matching) Sample.doc_ipadding []
           default_window).
  exact ipadding_has_no_ipad.
Defined.

(** C7 fails as stated: the sample document has iPadding and no iPad of
    its own, and the entity iPad still has a mention, found through its
    variation iOS. *)
Lemma ipad_mentioned_through_ios :
  ~ no_mention_claim (get_technologies []) Sample.doc_ipadding.
Proof.
  intros H.
  assert (E : Dict.get (lit "iPad")
                (find_context Sample.doc_ipadding (get_technologies [])
                   default_window) = None).
  { apply H; [|exact ipadding_has_no_ipad].
    exists [], (lit " is not a product; iOS is."). reflexivity. }
  vm_compute in E. discriminate.
Qed.

(** ** A failing backend *)

Section MainFacts.

Variables (analysis exn : Type).

Lemma results_printed_app (a b : list (event analysis)) :
  results_printed (a ++ b) = results_printed a ++ results_printed b.
Proof.
  induction a as [|ev a IH]; simpl; [reflexivity|].
  destruct ev; simpl; rewrite ?IH; reflexivity.
Qed.

Lemma find_context_prints_no_result (mentions : Dict.t str) :
  results_printed (find_context_prints analysis mentions) = [].
Proof. induction mentions as [|m r IH]; simpl; auto. Qed.

(** The loop of [main.py] up to the first failure: the results of the
    entities before it are printed, then the exception leaves the
    loop. *)
Lemma analyze_loop_openai_raises
    (analyze : str -> str -> result analysis exn) (tech ctx : str)
    (post : list (str * str)) (e : exn) :
  analyze ctx tech = Raise e ->
  forall (pre : list (str * str)) (results : list analysis)
         (out : list (event analysis)),
    Forall2 (fun item a => analyze (snd item) (fst item) = Ok a)
      pre results ->
    exists out',
      analyze_loop_openai analysis exn analyze
        (pre ++ (tech, ctx) :: post) out = Raised out' e /\
      results_printed out'
      = results_printed out ++ combine (map fst pre) results.
Proof.
  intros Hfail pre results out H. revert out.
  induction H as [|[t c] a pre results Ha _ IH]; intros out; simpl.
  - rewrite Hfail. eexists. split; [reflexivity|].
    rewrite results_printed_app. reflexivity.
  - simpl in Ha. rewrite Ha.
    destruct (IH (out ++ [Analyzing t; FinalAnalysis t a]))
      as (out' & -> & E).
    eexists. split; [reflexivity|].
    rewrite E, results_printed_app, <- app_assoc. reflexivity.
Qed.

(** The loop of [finbert.py] up to the first failure: nothing has been
    printed but the progress lines. *)
Lemma analyze_loop_finbert_raises
    (analyze : str -> result analysis exn) (tech ctx : str)
    (post : list (str * str)) (e : exn) :
  analyze ctx = Raise e ->
  forall (pre : list (str * str)) (out : list (event analysis))
         (acc : list (str * analysis)),
    Forall (fun item => exists a, analyze (snd item) = Ok a) pre ->
    exists out',
      analyze_loop_finbert analysis exn analyze
        (pre ++ (tech, ctx) :: post) out acc = Raise (out', e) /\
      results_printed out' = results_printed out.
Proof.
  intros Hfail pre out acc H. revert out acc.
  induction H as [|[t c] pre [a Ha] _ IH]; intros out acc; simpl.
  - rewrite Hfail. eexists. split; [reflexivity|].
    rewrite results_printed_app, app_nil_r. reflexivity.
  - simpl in Ha. rewrite Ha.
    destruct (IH (out ++ [Analyzing t]) (acc ++ [(t, a)]))
      as (out' & -> & E).
    eexists. split; [reflexivity|].
    rewrite E, results_printed_app, app_nil_r. reflexivity.
Qed.

End MainFacts.

(** C3, as the code has it: when the backend raises while one entity is
    classified, the exception leaves [main] and ends the run.  [main.py]
    has by then printed the results of the entities before the failing one
    and of no other; [finbert.py], which prints its table after the loop,
    has printed no result. *)
Theorem backend_failure_ends_the_run (analysis exn : Type)
    (analyze_with_openai : str -> str -> result analysis exn)
    (analyze_with_finbert : str -> result analysis exn)
    (document : str) (df : list cell)
    (pre post : list (str * str)) (tech ctx : str) :
  find_context document (get_technologies df) default_window
  = pre ++ (tech, ctx) :: post ->
  (forall (results : list analysis) (e : exn),
      Forall2 (fun item a => analyze_with_openai (snd item) (fst item) = Ok a)
        pre results ->
      analyze_with_openai ctx tech = Raise e ->
      exists out,
        main_openai analysis exn analyze_with_openai (Some document) (Some df)
        = Raised out e /\
        results_printed out = combine (map fst pre) results) /\
  (forall e : exn,
      Forall (fun item => exists a, analyze_with_finbert (snd item) = Ok a)
        pre ->
      analyze_with_finbert ctx = Raise e ->
      exists out,
        main_finbert analysis exn analyze_with_finbert (Some document)
          (Some df)
        = Raised out e /\
        results_printed out = []).
Proof.
  intros Hm. split.
  - intros results e Hpre Hfail. unfold main_openai. rewrite Hm.
    assert (Hne : Dict.is_empty (pre ++ (tech, ctx) :: post) = false)
      by (destruct pre; reflexivity).
    rewrite Hne.
    destruct (analyze_loop_openai_raises analysis exn analyze_with_openai
                tech ctx post e Hfail pre results
                ([Step1]
                 ++ get_technologies_prints analysis df ++ [Step2]
                 ++ find_context_prints analysis
                      (pre ++ (tech, ctx) :: post)
                 ++ [Step3]) Hpre)
      as (out & -> & E).
    exists out. split; [reflexivity|]. rewrite E.
    simpl. rewrite results_printed_app, find_context_prints_no_result.
    reflexivity.
  - intros e Hpre Hfail. unfold main_finbert. rewrite Hm.
    assert (Hne : Dict.is_empty (pre ++ (tech, ctx) :: post) = false)
      by (destruct pre; reflexivity).
    rewrite Hne.
    destruct (analyze_loop_finbert_raises analysis exn analyze_with_finbert
                tech ctx post e Hfail pre
                [Step1; Step2; Step3] [] Hpre)
      as (out & -> & E).
    exists out. split; [reflexivity|]. exact E.
Qed.

Lemma backend_failure_ends_the_run_witness :
  (exists out,
      main_openai str Sample.failure Sample.failing_openai
        (Some Sample.doc_three) (Some [])
      = Raised out Sample.MalformedAnswer /\
      results_printed out = [(lit "Mac", lit "Positive")]) /\
  (exists out,
      main_finbert str Sample.failure Sample.failing_finbert
        (Some Sample.doc_three) (Some [])
      = Raised out Sample.MalformedAnswer /\
      results_printed out = []).
Proof.
  assert (Hm : find_context Sample.doc_three (get_technologies [])
                 default_window
               = [(lit "Mac", context Sample.doc_three default_window (0, 3))]
                 ++ (lit "iPhone",
                     context Sample.doc_three default_window (303, 309))
                 :: [(lit "iPad",
                      context Sample.doc_three default_window (609, 613))])
    by (vm_compute; reflexivity).
  destruct (backend_failure_ends_the_run str Sample.failure
              Sample.failing_openai Sample.failing_finbert
              Sample.doc_three [] _ _ _ _ Hm) as [T1 T2].
  split.
  - apply (T1 [lit "Positive"] Sample.MalformedAnswer).
    + repeat constructor.
    + vm_compute; reflexivity.
  - apply (T2 Sample.MalformedAnswer).
    + repeat constructor. exists (lit "neutral"). vm_compute; reflexivity.
    + vm_compute; reflexivity.
Defined.

(** C3 fails as stated: the remote backend fails on iPhone, the second of
    three located entities, and the run does not end normally. *)
Lemma failure_aborts_sample_run :
  ~ survives_failure
      (main_openai str Sample.failure Sample.failing_openai
         (Some Sample.doc_three) (Some []))
      (find_context Sample.doc_three (get_technologies []) default_window)
      (lit "iPhone").
Proof.
  intros (out & E & _).
  match type of E with
  | ?run = _ =>
      assert (R : match run with Returned _ => true | Raised _ _ => false end
                  = false) by (vm_compute; reflexivity)
  end.
  rewrite E in R. discriminate.
Qed.

(** The same run with the local backend of [finbert.py]. *)
Example failure_aborts_sample_run_finbert :
  ~ survives_failure
      (main_finbert str Sample.failure Sample.failing_finbert
         (Some Sample.doc_three) (Some []))
      (find_context Sample.doc_three (get_technologies []) default_window)
      (lit "iPhone").
Proof.
  intros (out & E & _).
  match type of E with
  | ?run = _ =>
      assert (R : match run with Returned _ => true | Raised _ _ => false end
                  = false) by (vm_compute; reflexivity)
  end.
  rewrite E in R. discriminate.
Qed.

(** Without a failure both runs report the three entities. *)
Example steady_run_reports_all :
  results_printed
    (printed (main_openai str Sample.failure Sample.steady_openai
                (Some Sample.doc_three) (Some [])))
  = [(lit "Mac", lit "Positive"); (lit "iPhone", lit "Positive");
     (lit "iPad", lit "Positive")] /\
  results_printed
    (printed (main_finbert str Sample.failure Sample.steady_finbert
                (Some Sample.doc_three) (Some [])))
  = [(lit "Mac", lit "neutral"); (lit "iPhone", lit "neutral");
     (lit "iPad", lit "neutral")].
Proof. split; vm_compute; reflexivity. Qed.

(** ** The claims at sample inputs *)

Lemma find_context_first_match_wins_witness :
  first_match_wins Sample.doc_ipadding default_window (lit "iPad")
    [lit "iPad"; lit "iOS"]
    (find_context_store Sample.doc_ipadding synonym_seed default_window).
Proof.
  apply (proj2 (find_context_first_match_wins Sample.doc_ipadding
                  synonym_seed default_window seed_keys_NoDup)).
  simpl. auto.
Defined.

Lemma find_context_window_bounds_witness :
  exists vs v i,
    In (lit "iPad", vs) synonym_seed /\ In v vs /\
    Re.match_at v Sample.doc_ipadding i = true /\
    let start := Z.max 0 (Z.of_nat i - 5) in
    let end_ :=
      Z.min (Py.len Sample.doc_ipadding) (Z.of_nat (i + length v) + 5) in
    (0 <= start <= end_)%Z /\ (end_ <= Py.len Sample.doc_ipadding)%Z /\
    lit "uct; iOS is."
    = firstn (Z.to_nat (end_ - start))
        (skipn (Z.to_nat start) Sample.doc_ipadding) /\
    Py.len (lit "uct; iOS is.") = (end_ - start)%Z /\
    (Py.len (lit "uct; iOS is.") <= 2 * 5 + Py.len v)%Z.
Proof.
  apply (find_context_window_bounds Sample.doc_ipadding synonym_seed 5
           (lit "iPad") (lit "uct; iOS is.")).
  - lia.
  - vm_compute. reflexivity.
Defined.

Lemma find_context_absent_witness :
  Dict.get (lit "Apple Pay")
    (find_context Sample.doc_ipadding synonym_seed default_window) = None /\
  incl (Dict.keys
          (find_context Sample.doc_ipadding synonym_seed default_window))
       (remove (list_eq_dec ascii_dec) (lit "Apple Pay")
          (Dict.keys synonym_seed)).
Proof.
  apply (find_context_absent Sample.doc_ipadding synonym_seed default_window
           (lit "Apple Pay")).
  intros vs v Hin Hv. vm_compute in Hin.
  repeat (destruct Hin as [Hin|Hin]; [try discriminate Hin|]);
    [|contradiction].
  injection Hin as <-.
  destruct Hv as [<-|[]].
  apply ReFacts.first_match_None. vm_compute. reflexivity.
Defined.


(** * More of the code *)

(** ** Rejoining hyphenated words *)

Module HyphenFacts.

Import Hyphen.

Lemma span_word_spec (t w r : str) :
  span_word t = (w, r) ->
  t = w ++ r /\ word_run w /\ starts_with_word r = false.
Proof.
  revert w r. induction t as [|c t IH]; intros w r; simpl.
  - intros E; injection E as <- <-. repeat split. constructor.
  - destruct (Char.is_word c) eqn:Hc.
    + destruct (span_word t) as [w' r'] eqn:Es.
      intros E; injection E as <- <-.
      destruct (IH w' r' eq_refl) as (-> & Hw & Hr).
      repeat split; auto. constructor; auto.
    + intros E; injection E as <- <-. repeat split; [constructor|].
      simpl. exact Hc.
Qed.

Lemma span_word_app (w r : str) :
  word_run w -> starts_with_word r = false -> span_word (w ++ r) = (w, r).
Proof.
  intros Hw Hr. induction Hw as [|c w Hc _ IH]; simpl.
  - destruct r as [|d r]; [reflexivity|]. simpl in Hr. simpl. rewrite Hr.
    reflexivity.
  - rewrite Hc, IH. reflexivity.
Qed.

Lemma match_here_Some (t g1 g2 rest : str) :
  match_here t = Some (g1, g2, rest) <->
  (t = g1 ++ line_break ++ g2 ++ rest /\ is_a_word g1 /\ is_a_word g2 /\
   starts_with_word rest = false).
Proof.
  unfold match_here, is_a_word, line_break. split.
  - destruct (span_word t) as [w r] eqn:Es.
    apply span_word_spec in Es. destruct Es as (-> & Hw & _).
    destruct w as [|c w]; [discriminate|].
    destruct r as [|h [|n r2]]; try discriminate.
    destruct (Ascii.eqb h hyphen && Ascii.eqb n newline) eqn:Eb;
      [|discriminate].
    apply andb_true_iff in Eb. destruct Eb as [Eh En].
    apply Ascii.eqb_eq in Eh, En. subst h n.
    destruct (span_word r2) as [w2 r3] eqn:Es2.
    apply span_word_spec in Es2. destruct Es2 as (-> & Hw2 & Hr3).
    destruct w2 as [|c2 w2]; [discriminate|].
    intros E; injection E as <- <- <-.
    repeat split; auto; discriminate.
  - intros (-> & [Hn1 Hw1] & [Hn2 Hw2] & Hr).
    rewrite span_word_app; [|exact Hw1|reflexivity].
    destruct g1 as [|c g1]; [congruence|].
    cbn [app]. rewrite !Ascii.eqb_refl. cbn [andb].
    rewrite span_word_app; [|exact Hw2|exact Hr].
    destruct g2; [congruence|reflexivity].
Qed.

Lemma match_here_shorter (t g1 g2 rest : str) :
  match_here t = Some (g1, g2, rest) -> length rest < length t.
Proof.
  intros H. apply match_here_Some in H. destruct H as (-> & _).
  rewrite !length_app. simpl. lia.
Qed.

Lemma sub_fuel_any (f1 : nat) :
  forall (f2 : nat) (t : str),
    length t <= f1 -> length t <= f2 -> sub_fuel f1 t = sub_fuel f2 t.
Proof.
  induction f1 as [|f1 IH]; intros f2 t H1 H2.
  - destruct t; [|simpl in H1; lia]. destruct f2; reflexivity.
  - destruct t as [|c r]; [destruct f2; reflexivity|].
    destruct f2 as [|f2]; [simpl in H2; lia|].
    simpl in H1, H2. simpl.
    destruct (match_here (c :: r)) as [[[g1 g2] rest]|] eqn:E.
    + apply match_here_shorter in E. simpl in E.
      rewrite (IH f2 rest); [reflexivity|lia|lia].
    + rewrite (IH f2 r); [reflexivity|lia|lia].
Qed.

(** How [rejoin] goes on from the front of a text. *)
Lemma rejoin_nil : rejoin [] = [].
Proof. reflexivity. Qed.

Lemma rejoin_match (t g1 g2 rest : str) :
  match_here t = Some (g1, g2, rest) ->
  rejoin t = g1 ++ g2 ++ rejoin rest.
Proof.
  intros E. unfold rejoin.
  pose proof (match_here_shorter _ _ _ _ E) as Hlt.
  destruct t as [|c r]; [simpl in Hlt; lia|].
  simpl length. simpl sub_fuel. rewrite E.
  rewrite (sub_fuel_any (length r) (length rest) rest); [reflexivity| |lia].
  simpl in Hlt. lia.
Qed.

Lemma rejoin_copy (c : ascii) (r : str) :
  match_here (c :: r) = None -> rejoin (c :: r) = c :: rejoin r.
Proof.
  intros E. unfold rejoin. simpl length. simpl sub_fuel. rewrite E.
  reflexivity.
Qed.

(** Induction along the scan of [rejoin]. *)
Lemma rejoin_ind (P : str -> str -> Prop) :
  P [] [] ->
  (forall c r, match_here (c :: r) = None -> P r (rejoin r) ->
               P (c :: r) (c :: rejoin r)) ->
  (forall t g1 g2 rest, match_here t = Some (g1, g2, rest) ->
                        P rest (rejoin rest) ->
                        P t (g1 ++ g2 ++ rejoin rest)) ->
  forall t, P t (rejoin t).
Proof.
  intros H0 Hcopy Hmatch t.
  remember (length t) as n eqn:En. revert t En.
  induction n as [n IH] using lt_wf_ind. intros t En.
  destruct t as [|c r]; [exact H0|].
  destruct (match_here (c :: r)) as [[[g1 g2] rest]|] eqn:E.
  - rewrite (rejoin_match _ _ _ _ E). apply Hmatch; [exact E|].
    apply (IH (length rest)); [|reflexivity].
    apply match_here_shorter in E. lia.
  - rewrite (rejoin_copy _ _ E). apply Hcopy; [exact E|].
    apply (IH (length r)); [|reflexivity]. simpl in En. lia.
Qed.

Lemma filter_rejoin (p : ascii -> bool) (t : str) :
  p hyphen = false -> p newline = false ->
  filter p (rejoin t) = filter p t.
Proof.
  intros Hh Hn. apply rejoin_ind with (P := fun t r => filter p r = filter p t).
  - reflexivity.
  - intros c r _ IH. simpl. rewrite IH. reflexivity.
  - intros t0 g1 g2 rest E IH. apply match_here_Some in E.
    destruct E as (-> & _). unfold line_break.
    rewrite !filter_app, IH. simpl. rewrite Hh, Hn. reflexivity.
Qed.

Lemma length_rejoin (t : str) :
  exists joins, length t = length (rejoin t) + 2 * joins.
Proof.
  apply rejoin_ind
    with (P := fun t r => exists joins, length t = length r + 2 * joins).
  - exists 0. reflexivity.
  - intros c r _ [n IH]. exists n. simpl. lia.
  - intros t0 g1 g2 rest E [n IH]. apply match_here_Some in E.
    destruct E as (-> & _). exists (S n). unfold line_break.
    rewrite !length_app. simpl. rewrite ?length_app. lia.
Qed.

Lemma match_here_nonword (c : ascii) (r : str) :
  Char.is_word c = false -> match_here (c :: r) = None.
Proof. intros Hc. unfold match_here. simpl. rewrite Hc. reflexivity. Qed.

(** A character that is not a word character is copied. *)
Lemma rejoin_nonword (c : ascii) (r : str) :
  Char.is_word c = false -> rejoin (c :: r) = c :: rejoin r.
Proof. intros Hc. apply rejoin_copy, match_here_nonword, Hc. Qed.

Lemma starts_clean_no_word (post : str) :
  starts_clean post -> starts_with_word post = false.
Proof. destruct post as [|c r]; [reflexivity|]. intros [H _]. exact H. Qed.

Lemma starts_clean_rejoin (post : str) :
  starts_clean post -> starts_clean (rejoin post).
Proof.
  destruct post as [|c r]; [intros _; exact I|]. intros H.
  rewrite rejoin_nonword by apply H. exact H.
Qed.

(** A word with nothing to join it to is copied. *)
Lemma rejoin_word (w post : str) :
  word_run w -> starts_clean post -> rejoin (w ++ post) = w ++ rejoin post.
Proof.
  intros Hw Hp. induction Hw as [|c w Hc Hw IH]; [reflexivity|].
  simpl. rewrite rejoin_copy; [rewrite IH; reflexivity|].
  destruct (match_here (c :: w ++ post)) as [[[g1 g2] rest]|] eqn:E;
    [exfalso|reflexivity].
  unfold match_here in E.
  change (c :: w ++ post) with ((c :: w) ++ post) in E.
  rewrite span_word_app in E;
    [|constructor; assumption|apply starts_clean_no_word, Hp].
  destruct post as [|h [|n r2]]; try discriminate.
  destruct Hp as [_ Hb]. unfold not_break_char in Hb.
  destruct (Ascii.eqb h hyphen); [discriminate|]. discriminate.
Qed.

Lemma app_eq_separator (m : str) :
  Forall (fun c => ~ separator c) m ->
  forall (x y r : str) (s : ascii),
    separator s -> x ++ s :: y = m ++ r ->
    exists r', x = m ++ r' /\ r = r' ++ s :: y.
Proof.
  induction 1 as [|a m Ha _ IH]; intros x y r s Hs E; simpl in E.
  - exists x. auto.
  - destruct x as [|b x]; simpl in E; injection E as -> E.
    + contradiction.
    + destruct (IH x y r s Hs E) as (r' & -> & ->). exists r'. auto.
Qed.

Lemma word_run_no_separator (w : str) :
  word_run w -> Forall (fun c => ~ separator c) w.
Proof.
  intros H. apply Forall_forall. intros c Hc [Hs _].
  unfold word_run in H. rewrite Forall_forall in H.
  rewrite (H c Hc) in Hs. discriminate.
Qed.

Lemma line_break_no_separator : Forall (fun c => ~ separator c) line_break.
Proof.
  repeat constructor; intros [_ H]; vm_compute in H; discriminate.
Qed.

(** A match never reaches over a separator. *)
Lemma match_here_before_separator (x y : str) (s : ascii) :
  separator s ->
  match_here (x ++ s :: y)
  = match match_here x with
    | Some (g1, g2, rest) => Some (g1, g2, rest ++ s :: y)
    | None => None
    end.
Proof.
  intros Hs.
  destruct (match_here x) as [[[g1 g2] rest]|] eqn:E.
  - apply match_here_Some in E. destruct E as (-> & H1 & H2 & Hr).
    apply match_here_Some. rewrite <- !app_assoc.
    split; [reflexivity|]. split; [exact H1|]. split; [exact H2|].
    destruct rest; [apply Hs | exact Hr].
  - destruct (match_here (x ++ s :: y)) as [[[g1 g2] rest]|] eqn:E';
      [exfalso|reflexivity].
    apply match_here_Some in E'. destruct E' as (Ex & H1 & H2 & Hr).
    rewrite !app_assoc in Ex.
    assert (HF : Forall (fun c => ~ separator c)
                   ((g1 ++ line_break) ++ g2)).
    { apply Forall_app. split; [apply Forall_app; split|].
      - apply word_run_no_separator, H1.
      - exact line_break_no_separator.
      - apply word_run_no_separator, H2. }
    destruct (app_eq_separator _ HF x y rest s Hs Ex) as (r' & -> & ->).
    assert (M : match_here (((g1 ++ line_break) ++ g2) ++ r')
                = Some (g1, g2, r')).
    { apply match_here_Some. rewrite <- !app_assoc.
      split; [reflexivity|]. split; [exact H1|]. split; [exact H2|].
      destruct r'; [reflexivity | exact Hr]. }
    congruence.
Qed.

Lemma rejoin_cut (x y : str) (s : ascii) :
  separator s -> rejoin (x ++ s :: y) = rejoin x ++ s :: rejoin y.
Proof.
  intros Hs.
  apply rejoin_ind
    with (P := fun x rx => rejoin (x ++ s :: y) = rx ++ s :: rejoin y).
  - simpl. apply rejoin_nonword, Hs.
  - intros c r E IH. simpl. rewrite rejoin_copy; [rewrite IH; reflexivity|].
    change (c :: r ++ s :: y) with ((c :: r) ++ s :: y).
    rewrite match_here_before_separator, E by exact Hs. reflexivity.
  - intros t g1 g2 rest E IH.
    rewrite (rejoin_match (t ++ s :: y) g1 g2 (rest ++ s :: y)).
    + rewrite IH, <- !app_assoc. reflexivity.
    + rewrite match_here_before_separator, E by exact Hs. reflexivity.
Qed.

End HyphenFacts.

Lemma no_line_break_tail (c : ascii) (r : str) :
  no_line_break (c :: r) -> no_line_break r.
Proof. intros H pre post ->. apply (H (c :: pre) post). reflexivity. Qed.

Lemma rejoin_unbroken (t : str) : no_line_break t -> Hyphen.rejoin t = t.
Proof.
  apply HyphenFacts.rejoin_ind with (P := fun t r => no_line_break t -> r = t).
  - reflexivity.
  - intros c r _ IH H. rewrite IH; [reflexivity|].
    apply (no_line_break_tail c), H.
  - intros t0 g1 g2 rest E _ H. exfalso.
    apply HyphenFacts.match_here_Some in E. destruct E as (E & _).
    apply (H g1 (g2 ++ rest)), E.
Qed.

Lemma filter_pages_text (pages : list str) :
  filter not_break_char (pages_text pages)
  = filter not_break_char (concat pages).
Proof.
  induction pages as [|p pages IH]; [reflexivity|].
  unfold pages_text in *. simpl. rewrite <- app_assoc, !filter_app, IH.
  reflexivity.
Qed.

Lemma is_a_word_app (a b : str) :
  is_a_word a -> is_a_word b -> is_a_word (a ++ b).
Proof.
  intros [Ha Wa] [_ Wb]. split.
  - destruct a; [congruence|discriminate].
  - apply Forall_app. auto.
Qed.

(** X1: [parse_pdf_to_text] keeps every character of every page that is
    neither a hyphen nor a newline, in order, and what it takes out of the
    pages' text comes in pairs of characters. *)
Theorem parse_pdf_to_text_keeps_characters (pages : list str) :
  filter not_break_char (parse_pdf_to_text pages)
  = filter not_break_char (concat pages) /\
  exists joins,
    length (pages_text pages)
    = length (parse_pdf_to_text pages) + 2 * joins.
Proof.
  unfold parse_pdf_to_text. split.
  - rewrite HyphenFacts.filter_rejoin by reflexivity.
    apply filter_pages_text.
  - apply HyphenFacts.length_rejoin.
Qed.

(** X2: when the text of the pages has no hyphen directly before a
    newline, [parse_pdf_to_text] returns it as it is: every page followed
    by a newline. *)
Theorem parse_pdf_to_text_unbroken (pages : list str) :
  no_line_break (pages_text pages) ->
  parse_pdf_to_text pages = pages_text pages.
Proof. apply rejoin_unbroken. Qed.

(** X3: a word broken by a hyphen at a line end is joined with the word
    that starts the next line, at the start of the text and behind any
    separator; the text before and the text behind are treated on their
    own. *)
Theorem rejoin_joins_hyphenated_word (w1 w2 post : str) :
  is_a_word w1 -> is_a_word w2 -> starts_with_word post = false ->
  Hyphen.rejoin (w1 ++ line_break ++ w2 ++ post)
  = w1 ++ w2 ++ Hyphen.rejoin post /\
  forall (x : str) (s : ascii),
    separator s ->
    Hyphen.rejoin (x ++ s :: w1 ++ line_break ++ w2 ++ post)
    = Hyphen.rejoin x ++ s :: w1 ++ w2 ++ Hyphen.rejoin post.
Proof.
  intros H1 H2 Hp.
  assert (E : Hyphen.rejoin (w1 ++ line_break ++ w2 ++ post)
              = w1 ++ w2 ++ Hyphen.rejoin post).
  { apply HyphenFacts.rejoin_match, HyphenFacts.match_here_Some. auto. }
  split; [exact E|].
  intros x s Hs. rewrite (HyphenFacts.rejoin_cut x _ s Hs), E.
  reflexivity.
Qed.

(** X4: of a word broken twice, over three lines, only the first break is
    joined: the middle part has been used up by the first match.  Running
    the substitution again joins the second break. *)
Theorem rejoin_keeps_second_break (w1 w2 w3 post : str) :
  is_a_word w1 -> is_a_word w2 -> is_a_word w3 -> starts_clean post ->
  Hyphen.rejoin (w1 ++ line_break ++ w2 ++ line_break ++ w3 ++ post)
  = w1 ++ w2 ++ line_break ++ w3 ++ Hyphen.rejoin post /\
  Hyphen.rejoin
    (Hyphen.rejoin (w1 ++ line_break ++ w2 ++ line_break ++ w3 ++ post))
  = w1 ++ w2 ++ w3 ++ Hyphen.rejoin (Hyphen.rejoin post).
Proof.
  intros H1 H2 H3 Hp.
  assert (E : Hyphen.rejoin
                (w1 ++ line_break ++ w2 ++ line_break ++ w3 ++ post)
              = w1 ++ w2 ++ line_break ++ w3 ++ Hyphen.rejoin post).
  { rewrite (HyphenFacts.rejoin_match _ w1 w2 (line_break ++ w3 ++ post)).
    - unfold line_break at 1. simpl.
      rewrite !HyphenFacts.rejoin_nonword by reflexivity.
      rewrite HyphenFacts.rejoin_word; [reflexivity|apply H3|exact Hp].
    - apply HyphenFacts.match_here_Some. auto. }
  split; [exact E|]. rewrite E.
  rewrite (app_assoc w1 w2).
  rewrite (HyphenFacts.rejoin_match _ (w1 ++ w2) w3 (Hyphen.rejoin post)).
  - rewrite <- app_assoc. reflexivity.
  - apply HyphenFacts.match_here_Some.
    split; [reflexivity|]. split; [apply is_a_word_app; assumption|].
    split; [exact H3|].
    apply HyphenFacts.starts_clean_no_word, HyphenFacts.starts_clean_rejoin.
    exact Hp.
Qed.

(** X5: a separator (a character that is no word character, no hyphen and
    no newline) cuts the text in two parts that are rejoined on their
    own. *)
Theorem rejoin_cut_at_separator (x y : str) (s : ascii) :
  separator s ->
  Hyphen.rejoin (x ++ s :: y)
  = Hyphen.rejoin x ++ s :: Hyphen.rejoin y.
Proof. apply HyphenFacts.rejoin_cut. Qed.



(** ** More on the synonym index *)

Lemma str_in_In (name : str) (names : list str) :
  str_in name names = true <-> In name names.
Proof.
  unfold str_in. rewrite existsb_exists. split.
  - intros (x & Hx & E). apply str_eqb_eq in E. subst. exact Hx.
  - intros H. exists name. split; [exact H | apply str_eqb_refl].
Qed.

Lemma str_in_iff (name : str) (a b : list str) :
  (In name a <-> In name b) -> str_in name a = str_in name b.
Proof.
  intros H. rewrite <- !str_in_In in H.
  destruct (str_in name a), (str_in name b); intuition congruence.
Qed.

Lemma get_discovered (k : str) (news : list str) :
  Dict.get k (map discovered_entry news)
  = if str_in k news then Some [k] else None.
Proof.
  induction news as [|n news IH]; [reflexivity|].
  simpl. destruct (str_eqb k n) eqn:E; simpl; [|exact IH].
  apply str_eqb_eq in E. subst. reflexivity.
Qed.

(** Looking a key up in the index. *)
Lemma get_technologies_get (df : list cell) (k : str) :
  Dict.get k (get_technologies df)
  = match Dict.get k synonym_seed with
    | Some vs => Some vs
    | None =>
        if nonempty k && str_in k (map normalize (tech_list df))
        then Some [k]
        else None
    end.
Proof.
  destruct (get_technologies_spec df) as (news & -> & _ & Hin).
  rewrite DictFacts.get_app.
  destruct (Dict.get k synonym_seed) eqn:Es; [reflexivity|].
  apply DictFacts.get_None in Es.
  rewrite get_discovered. f_equal.
  destruct (str_in k news) eqn:E1.
  - apply str_in_In, Hin in E1. destruct E1 as (H1 & H2 & _).
    apply str_in_In in H1. apply nonempty_true in H2.
    rewrite H1, H2. reflexivity.
  - destruct (nonempty k && str_in k (map normalize (tech_list df))) eqn:E2;
      [|reflexivity].
    apply andb_true_iff in E2. destruct E2 as [H2 H1].
    apply nonempty_true in H2. apply str_in_In in H1.
    assert (In k news) by (apply Hin; auto).
    apply str_in_In in H. congruence.
Qed.

Lemma filter_all (p : ascii -> bool) (x : str) :
  Forall (fun c => p c = true) x -> filter p x = x.
Proof.
  induction 1 as [|c x Hc _ IH]; simpl; [reflexivity|].
  rewrite Hc, IH. reflexivity.
Qed.

Lemma lstrip_fixed (x : str) : starts_with_space_free x -> Py.lstrip x = x.
Proof.
  destruct x as [|c r]; [reflexivity|]. simpl. intros ->. reflexivity.
Qed.

(** Stripping changes nothing in a string with no space at either end. *)
Lemma strip_fixed (x : str) :
  starts_with_space_free x -> starts_with_space_free (rev x) ->
  Py.strip x = x.
Proof.
  intros H1 H2. unfold Py.strip, Py.rstrip.
  rewrite (lstrip_fixed x H1), (lstrip_fixed (rev x) H2).
  apply rev_involutive.
Qed.

Lemma normalize_clean (tech : str) : clean_name (normalize tech).
Proof.
  unfold clean_name, normalize. split.
  - apply strip_Forall. apply Forall_forall. intros c Hc.
    apply filter_In in Hc. tauto.
  - apply strip_ends.
Qed.

Lemma clean_name_fixed (x : str) : clean_name x -> normalize x = x.
Proof.
  intros (H1 & H2 & H3). unfold normalize.
  rewrite filter_all by exact H1. apply strip_fixed; assumption.
Qed.

(** X7: a normalized name has word characters and spaces only and no
    space at either end, and normalizing it again changes nothing. *)
Theorem normalize_idempotent (tech : str) :
  clean_name (normalize tech) /\
  normalize (normalize tech) = normalize tech.
Proof.
  split; [apply normalize_clean|].
  apply clean_name_fixed, normalize_clean.
Qed.

Lemma tech_list_In (df : list cell) (t : str) :
  In t (tech_list df) <-> exists c, In c df /\ In t (row_techs c).
Proof. unfold tech_list. apply in_flat_map. Qed.

(** X8: the index does not depend on the order of the rows nor on how
    often a row is repeated: two tables with the same rows give the same
    keys and, under each key, the same variations. *)
Theorem get_technologies_order_independent (df df' : list cell) :
  (forall c, In c df <-> In c df') ->
  same_index (get_technologies df) (get_technologies df').
Proof.
  intros Hrows.
  assert (Hn : forall k, In k (map normalize (tech_list df))
                         <-> In k (map normalize (tech_list df'))).
  { intros k. rewrite !in_map_iff.
    split; intros (t & E & Ht); exists t; (split; [exact E|]);
      apply tech_list_In in Ht; destruct Ht as (c & Hc & Ht);
      apply tech_list_In; exists c; (split; [apply Hrows, Hc | exact Ht]). }
  assert (Hg : forall k, Dict.get k (get_technologies df)
                         = Dict.get k (get_technologies df')).
  { intros k. rewrite !get_technologies_get.
    rewrite (str_in_iff k _ _ (Hn k)). reflexivity. }
  split.
  - intros k. rewrite <- !DictFacts.mem_keys. unfold Dict.mem.
    rewrite Hg. reflexivity.
  - intros k. rewrite Hg. destruct (Dict.get k (get_technologies df')); tauto.
Qed.

(** X9: rows read later never change, move or remove what earlier rows
    and the seed have put in the index: the index of a longer table is the
    index of its first rows with entries added behind, and it is the
    normalization loop run on from that index. *)
Theorem get_technologies_extends (df more : list cell) :
  get_technologies (df ++ more)
  = add_techs (get_technologies df) (tech_list more) /\
  exists news,
    get_technologies (df ++ more)
    = get_technologies df ++ map discovered_entry news.
Proof.
  assert (E : get_technologies (df ++ more)
              = add_techs (get_technologies df) (tech_list more)).
  { unfold get_technologies. rewrite tech_list_app, add_techs_app.
    reflexivity. }
  split; [exact E|]. rewrite E.
  destruct (add_techs_spec (tech_list more) (get_technologies df))
    as (news & -> & _).
  exists news. reflexivity.
Qed.

(** X10: looking a key up in the index gives the seed's variations for a
    seed key, whatever the rows; for any other key it gives the key alone
    when the key is a non-empty normalized name of the rows, and nothing
    otherwise. *)
Theorem get_technologies_lookup (df : list cell) (k : str) :
  Dict.get k (get_technologies df)
  = match Dict.get k synonym_seed with
    | Some vs => Some vs
    | None =>
        if nonempty k && str_in k (map normalize (tech_list df))
        then Some [k]
        else None
    end.
Proof. apply get_technologies_get. Qed.

Lemma split_cons (sep : ascii) (s : str) :
  exists p ps, Py.split sep s = p :: ps.
Proof.
  destruct s as [|c r]; simpl; [eauto|].
  destruct (Ascii.eqb c sep); [eauto|].
  destruct (Py.split sep r); eauto.
Qed.

Lemma split_length (sep : ascii) (s : str) :
  length (Py.split sep s) = S (count_occ ascii_dec s sep).
Proof.
  induction s as [|c r IH]; [reflexivity|]. simpl.
  destruct (Ascii.eqb_spec c sep) as [->|Hne].
  - destruct (ascii_dec sep sep); [|congruence]. simpl. rewrite IH.
    reflexivity.
  - destruct (ascii_dec c sep); [congruence|].
    destruct (split_cons sep r) as (p & ps & E). rewrite E in *.
    simpl in *. exact IH.
Qed.

Lemma split_no_sep (sep : ascii) (s : str) :
  Forall (fun p => ~ In sep p) (Py.split sep s).
Proof.
  induction s as [|c r IH]; simpl.
  - repeat constructor. intros [].
  - destruct (Ascii.eqb_spec c sep) as [->|Hne].
    + constructor; [intros []|exact IH].
    + destruct (Py.split sep r) as [|p ps].
      * repeat constructor. intros [H|[]]. congruence.
      * inversion IH; subst. constructor; [|assumption].
        intros [H|H]; [congruence|contradiction].
Qed.

Lemma join_split (sep : ascii) (s : str) :
  join_with sep (Py.split sep s) = s.
Proof.
  induction s as [|c r IH]; [reflexivity|]. simpl.
  destruct (split_cons sep r) as (p & ps & E). rewrite E in *.
  destruct (Ascii.eqb_spec c sep) as [->|Hne].
  - change (join_with sep ([] :: p :: ps))
      with ([] ++ sep :: join_with sep (p :: ps)).
    rewrite IH. reflexivity.
  - destruct ps as [|q ps]; simpl in *; rewrite IH; reflexivity.
Qed.

(** X11: a row gives one name more than it has semicolons; put together
    again with semicolons, the pieces it is split into are the row; and no
    name of the row has a semicolon in it or a space at either end. *)
Theorem row_techs_pieces (c : cell) :
  length (row_techs c) = S (count_occ ascii_dec (py_str c) ";"%char) /\
  join_with ";"%char (Py.split ";"%char (py_str c)) = py_str c /\
  Forall (fun t => ~ In ";"%char t /\ starts_with_space_free t /\
                   starts_with_space_free (rev t))
    (row_techs c).
Proof.
  unfold row_techs. split; [|split].
  - rewrite length_map. apply split_length.
  - apply join_split.
  - apply Forall_forall. intros t Ht. apply in_map_iff in Ht.
    destruct Ht as (p & <- & Hp). split; [|apply strip_ends].
    pose proof (split_no_sep ";"%char (py_str c)) as Hs.
    rewrite Forall_forall in Hs. specialize (Hs p Hp).
    assert (F : Forall (fun a => a <> ";"%char) (Py.strip p)).
    { apply strip_Forall. apply Forall_forall. intros a Ha ->.
      contradiction. }
    rewrite Forall_forall in F. intros Hin. apply (F _ Hin). reflexivity.
Qed.

(** ** More on the mention locator *)

Lemma first_match_matched (v document : str) (i : nat) :
  Re.match_at v document i = true -> Re.first_match v document <> None.
Proof.
  intros M E. apply ReFacts.first_match_None in E.
  rewrite (E i) in M. discriminate.
Qed.

Lemma first_match_unmatched (v document : str) :
  unmatched document v -> Re.first_match v document = None.
Proof.
  intros U. destruct (Re.first_match v document) as [m|] eqn:E;
    [exfalso|reflexivity].
  apply ReFacts.first_match_Some in E. destruct E as (_ & M & _).
  rewrite (U (fst m)) in M. discriminate.
Qed.

Lemma has_match_true (document : str) (vs : list str) :
  has_match document vs = true <->
  exists v i, In v vs /\ Re.match_at v document i = true.
Proof.
  unfold has_match. rewrite existsb_exists. split.
  - intros (v & Hv & E).
    destruct (Re.first_match v document) as [m|] eqn:F; [|discriminate].
    apply ReFacts.first_match_Some in F. destruct F as (_ & M & _). eauto.
  - intros (v & i & Hv & M). exists v. split; [exact Hv|].
    apply first_match_matched in M.
    destruct (Re.first_match v document); congruence.
Qed.

Lemma has_match_false (document : str) (vs : list str) :
  has_match document vs = false <->
  forall v, In v vs -> unmatched document v.
Proof.
  split.
  - intros H v Hv i.
    destruct (Re.match_at v document i) eqn:M; [|reflexivity].
    assert (has_match document vs = true)
      by (apply has_match_true; eauto).
    congruence.
  - intros H. destruct (has_match document vs) eqn:E; [|reflexivity].
    apply has_match_true in E. destruct E as (v & i & Hv & M).
    rewrite (H v Hv i) in M. discriminate.
Qed.

(** The keys of the mentions after a run of entries with fresh keys. *)
Lemma scan_entries_keys (document : str) (window : Z) :
  forall (todo done : Dict.t (list str)) (h : store),
    NoDup (Dict.keys (done ++ todo)) ->
    (forall k, In k (Dict.keys (st_mentions h)) -> In k (Dict.keys done)) ->
    Dict.keys (st_mentions (fold_left (scan_entry document window) todo h))
    = Dict.keys (st_mentions h)
      ++ Dict.keys (filter (fun e => has_match document (snd e)) todo).
Proof.
  induction todo as [|[k vs] todo IH]; intros done h Hnd Hsub; simpl.
  - rewrite app_nil_r. reflexivity.
  - assert (Hk : ~ In k (Dict.keys done)).
    { unfold Dict.keys in Hnd. rewrite map_app in Hnd. simpl in Hnd.
      apply NoDup_remove_2 in Hnd. intros C. apply Hnd, in_or_app. auto. }
    assert (Hfresh : Dict.mem k (st_mentions h) = false).
    { apply DictFacts.not_mem_keys. intros C. apply Hk, Hsub, C. }
    change (done ++ (k, vs) :: todo) with (done ++ [(k, vs)] ++ todo) in Hnd.
    rewrite app_assoc in Hnd.
    unfold scan_entry at 2. simpl fst. simpl snd.
    destruct (scan_variations_fresh document window k vs h Hfresh)
      as [(pre & v & post & i & Evs & _ & M & _ & E) | (Hall & E)].
    + assert (Hm : has_match document vs = true).
      { apply has_match_true. exists v, i. split; [|exact M].
        rewrite Evs. apply in_or_app. simpl; auto. }
      rewrite Hm, E.
      rewrite (IH (done ++ [(k, vs)])); [| exact Hnd |].
      * simpl. rewrite keys_snoc, <- app_assoc. reflexivity.
      * simpl. intros k0. rewrite !keys_snoc, !in_app_iff.
        intros [H|H]; [left; apply Hsub, H | right; exact H].
    + assert (Hm : has_match document vs = false)
        by (apply has_match_false, Hall).
      rewrite Hm, E.
      rewrite (IH (done ++ [(k, vs)])); [reflexivity | exact Hnd |].
      simpl. intros k0 H. rewrite keys_snoc. apply in_or_app. left.
      apply Hsub, H.
Qed.

Lemma find_context_keys (document : str) (technologies : Dict.t (list str))
    (window : Z) :
  NoDup (Dict.keys technologies) ->
  Dict.keys (find_context document technologies window)
  = Dict.keys (filter (fun e => has_match document (snd e)) technologies).
Proof.
  intros Hnd. unfold find_context, find_context_store.
  rewrite (scan_entries_keys document window technologies []);
    [reflexivity | exact Hnd |].
  simpl. tauto.
Qed.

(** X12: the entities of the mapping are the entities of the index that
    have a variation with a match, in the order of the index; the window
    has no part in which entities are found. *)
Theorem find_context_keeps_index_order (document : str)
    (technologies : Dict.t (list str)) (window window' : Z) :
  NoDup (Dict.keys technologies) ->
  Dict.keys (find_context document technologies window)
  = Dict.keys (filter (fun e => has_match document (snd e)) technologies) /\
  Dict.keys (find_context document technologies window)
  = Dict.keys (find_context document technologies window').
Proof.
  intros Hnd. split; [apply find_context_keys, Hnd|].
  rewrite !find_context_keys by exact Hnd. reflexivity.
Qed.

Lemma mentioned_iff (document : str)
    (technologies : Dict.t (list str)) (window : Z) (k : str)
    (vs : list str) :
  NoDup (Dict.keys technologies) -> In (k, vs) technologies ->
  (Dict.mem k (find_context document technologies window) = true <->
   exists v i, In v vs /\ Re.match_at v document i = true).
Proof.
  intros Hnd Hin.
  pose proof (find_context_entry document technologies window Hnd k vs Hin)
    as W.
  unfold Dict.mem, find_context.
  destruct W as [(pre & v & post & i & Evs & _ & M & _ & -> & _)
                | (Hall & -> & _)].
  - split; [intros _|reflexivity]. exists v, i. split; [|exact M].
    rewrite Evs. apply in_or_app. simpl; auto.
  - split; [discriminate|]. intros (v & i & Hv & M).
    rewrite (Hall v Hv i) in M. discriminate.
Qed.

(** X13: an entity of the index has a mention exactly when one of its
    variations has a match in the document. *)
Theorem find_context_mentioned_iff (document : str)
    (technologies : Dict.t (list str)) (window : Z) (k : str)
    (vs : list str) :
  NoDup (Dict.keys technologies) -> In (k, vs) technologies ->
  (Dict.mem k (find_context document technologies window) = true <->
   exists v i, In v vs /\ Re.match_at v document i = true).
Proof. apply mentioned_iff. Qed.

(** *** Case *)

Lemma eq_ci_left (a b c : ascii) :
  Char.eq_ci a b = true -> Char.eq_ci a c = Char.eq_ci b c.
Proof.
  unfold Char.eq_ci. rewrite Ascii.eqb_eq. intros ->. reflexivity.
Qed.

Lemma eq_ci_right (a b c : ascii) :
  Char.eq_ci b c = true -> Char.eq_ci a b = Char.eq_ci a c.
Proof.
  unfold Char.eq_ci. rewrite Ascii.eqb_eq. intros ->. reflexivity.
Qed.

Lemma prefix_ci_variation (v v' : str) :
  same_ci v v' -> forall text, Re.prefix_ci v text = Re.prefix_ci v' text.
Proof.
  induction 1 as [|a b v v' Hab _ IH]; intros text; [reflexivity|].
  destruct text as [|c text]; simpl; [reflexivity|].
  rewrite (eq_ci_left a b c Hab), IH. reflexivity.
Qed.

Lemma prefix_ci_document (v : str) :
  forall t t', same_ci t t' -> Re.prefix_ci v t = Re.prefix_ci v t'.
Proof.
  induction v as [|p v IH]; intros t t' H; [reflexivity|].
  destruct H as [|c c' t t' Hc Ht]; simpl; [reflexivity|].
  rewrite (eq_ci_right p c c' Hc), (IH t t' Ht). reflexivity.
Qed.

Lemma word_at_document (d d' : str) :
  same_ci d d' -> forall i, Re.word_at d i = Re.word_at d' i.
Proof.
  unfold Re.word_at.
  induction 1 as [|c c' d d' Hc _ IH]; intros i; [reflexivity|].
  destruct i as [|i]; simpl; [apply eq_ci_is_word, Hc | apply IH].
Qed.

Lemma skipn_same_ci (d d' : str) :
  same_ci d d' -> forall i, same_ci (skipn i d) (skipn i d').
Proof.
  induction 1 as [|c c' d d' Hc Hd IH]; intros i.
  - rewrite !skipn_nil. constructor.
  - destruct i as [|i]; simpl; [constructor; assumption | apply IH].
Qed.

Lemma boundary_document (d d' : str) :
  same_ci d d' -> forall i, Re.boundary d i = Re.boundary d' i.
Proof.
  intros H i. unfold Re.boundary. rewrite (word_at_document d d' H).
  destruct i as [|j]; simpl; [|rewrite (word_at_document d d' H)];
    reflexivity.
Qed.

Lemma match_at_variation (v v' document : str) (i : nat) :
  same_ci v v' -> Re.match_at v document i = Re.match_at v' document i.
Proof.
  intros H. unfold Re.match_at.
  rewrite (prefix_ci_variation v v' H), (same_ci_length v v' H).
  reflexivity.
Qed.

Lemma match_at_document (v d d' : str) (i : nat) :
  same_ci d d' -> Re.match_at v d i = Re.match_at v d' i.
Proof.
  intros H. unfold Re.match_at.
  rewrite (prefix_ci_document v _ _ (skipn_same_ci d d' H i)).
  rewrite !(boundary_document d d' H). reflexivity.
Qed.

Lemma find_pointwise (f g : nat -> bool) (l : list nat) :
  (forall i, f i = g i) -> find f l = find g l.
Proof.
  intros H. induction l as [|a l IH]; simpl; [reflexivity|].
  rewrite H, IH. reflexivity.
Qed.

Lemma first_match_variation (v v' document : str) :
  same_ci v v' -> Re.first_match v document = Re.first_match v' document.
Proof.
  intros H. unfold Re.first_match.
  rewrite (find_pointwise _ (Re.match_at v' document)),
    (same_ci_length v v' H); [reflexivity|].
  intros i. apply match_at_variation, H.
Qed.

Lemma first_match_document (v d d' : str) :
  same_ci d d' -> Re.first_match v d = Re.first_match v d'.
Proof.
  intros H. unfold Re.first_match.
  rewrite (find_pointwise _ (Re.match_at v d')), (same_ci_length d d' H);
    [reflexivity|].
  intros i. apply match_at_document, H.
Qed.

Lemma scan_variations_same_ci (document : str) (window : Z) (k : str)
    (vs vs' : list str) :
  Forall2 same_ci vs vs' ->
  forall h h', st_mentions h = st_mentions h' ->
    st_mentions (scan_variations document window k vs h)
    = st_mentions (scan_variations document window k vs' h').
Proof.
  induction 1 as [|v v' vs vs' Hv _ IH]; intros h h' E; simpl; [exact E|].
  assert (Es : st_mentions (scan_matches document window k v h)
               = st_mentions (scan_matches document window k v' h')).
  { unfold scan_matches. rewrite (first_match_variation v v' document Hv).
    destruct (Re.first_match v' document); simpl; rewrite E; reflexivity. }
  rewrite Es.
  destruct (Dict.mem k _); [exact Es | apply IH, Es].
Qed.

Lemma scan_entries_same_ci (document : str) (window : Z)
    (a b : Dict.t (list str)) :
  index_same_ci a b ->
  forall h h', st_mentions h = st_mentions h' ->
    st_mentions (fold_left (scan_entry document window) a h)
    = st_mentions (fold_left (scan_entry document window) b h').
Proof.
  induction 1 as [|[k vs] [k' vs'] a b [Ek Ev] _ IH]; intros h h' E; simpl;
    [exact E|].
  simpl in Ek, Ev. subst k'. apply IH. unfold scan_entry. simpl.
  apply scan_variations_same_ci; assumption.
Qed.

(** X14: the case of the variations plays no part: two indexes whose
    variations differ in case only give the same mapping. *)
Theorem find_context_ignores_variation_case (document : str)
    (technologies technologies' : Dict.t (list str)) (window : Z) :
  index_same_ci technologies technologies' ->
  find_context document technologies window
  = find_context document technologies' window.
Proof.
  intros H. unfold find_context, find_context_store.
  apply scan_entries_same_ci; [exact H | reflexivity].
Qed.

Lemma has_match_document (d d' : str) (vs : list str) :
  same_ci d d' -> has_match d vs = has_match d' vs.
Proof.
  intros H. unfold has_match. induction vs as [|v vs IH]; [reflexivity|].
  simpl. rewrite (first_match_document v d d' H), IH. reflexivity.
Qed.

(** X15: the case of the document plays no part in what is found: in two
    documents that differ in case only, every variation has its first match
    at the same place, and the same entities are mentioned. *)
Theorem find_context_ignores_document_case (document document' : str)
    (technologies : Dict.t (list str)) (window : Z) :
  same_ci document document' ->
  NoDup (Dict.keys technologies) ->
  (forall v, Re.first_match v document = Re.first_match v document') /\
  Dict.keys (find_context document technologies window)
  = Dict.keys (find_context document' technologies window).
Proof.
  intros H Hnd. split.
  - intros v. apply first_match_document, H.
  - rewrite !find_context_keys by exact Hnd. f_equal.
    apply filter_ext. intros e. apply has_match_document, H.
Qed.

(** *** Windows *)

Lemma context_shows (pre mid post : str) (window : Z) :
  (0 <= window)%Z ->
  occurs_in mid
    (context (pre ++ mid ++ post) window
       (length pre, length pre + length mid)).
Proof.
  intros Hw. unfold context, Py.slice, Py.slice_bound, Py.len.
  simpl fst. simpl snd.
  set (n := length (pre ++ mid ++ post)).
  assert (En : n = length pre + length mid + length post).
  { unfold n. rewrite !length_app. lia. }
  set (start := Z.max 0 (Z.of_nat (length pre) - window)).
  set (end_ := Z.min (Z.of_nat n)
                 (Z.of_nat (length pre + length mid) + window)).
  destruct (Z.ltb_spec start 0); [unfold start in *; lia|].
  destruct (Z.ltb_spec end_ 0); [unfold end_ in *; lia|].
  set (lo := Z.to_nat (Z.min start (Z.of_nat n))).
  set (hi := Z.to_nat (Z.min end_ (Z.of_nat n))).
  assert (Hlo : lo <= length pre) by (unfold lo, start; lia).
  assert (Hhi : length pre + length mid <= hi) by (unfold hi, end_; lia).
  exists (skipn lo pre), (firstn (hi - lo - length (skipn lo pre) - length mid) post).
  rewrite skipn_app. replace (lo - length pre) with 0 by lia.
  simpl skipn.
  rewrite firstn_app, (firstn_all2 (skipn lo pre))
    by (rewrite length_skipn; lia).
  rewrite firstn_app, (firstn_all2 mid)
    by (rewrite length_skipn; lia).
  reflexivity.
Qed.

(** X16: with a window radius that is not negative, the context stored
    for an entity shows the mention: it contains a spelling of one of the
    entity's variations. *)
Theorem find_context_shows_the_mention (document : str)
    (technologies : Dict.t (list str)) (window : Z) (k ctx : str) :
  (0 <= window)%Z ->
  Dict.get k (find_context document technologies window) = Some ctx ->
  exists vs v mid,
    In (k, vs) technologies /\ In v vs /\ same_ci v mid /\
    occurs_in mid ctx.
Proof.
  intros Hw Hget. apply DictFacts.get_In in Hget.
  pose proof (find_context_justified document technologies window) as J.
  rewrite Forall_forall in J. destruct (J _ Hget) as (vs & v & i & H).
  simpl in H. destruct H as (Hk & Hv & M & ->).
  apply match_at_split in M.
  destruct M as (pre & mid & post & -> & <- & Hci & _).
  exists vs, v, mid. repeat split; auto.
  rewrite (same_ci_length v mid Hci). apply context_shows, Hw.
Qed.

Lemma context_whole (document : str) (window : Z) (i e : nat) :
  (Py.len document <= window)%Z -> i <= e -> e <= length document ->
  context document window (i, e) = document.
Proof.
  intros Hw Hie He. unfold context, Py.len in *. simpl fst. simpl snd.
  replace (Z.max 0 (Z.of_nat i - window)) with 0%Z by lia.
  replace (Z.min (Z.of_nat (length document)) (Z.of_nat e + window))
    with (Z.of_nat (length document)) by lia.
  unfold Py.slice, Py.slice_bound, Py.len.
  destruct (Z.ltb_spec (Z.of_nat (length document)) 0); [lia|].
  change (0 <? 0)%Z with false. cbv iota.
  rewrite Z.min_id, Nat2Z.id, Z.min_l by lia.
  simpl. rewrite Nat.sub_0_r. apply firstn_all.
Qed.

(** X17: in a document no longer than the window radius every context is
    the whole document. *)
Theorem find_context_short_document (document : str)
    (technologies : Dict.t (list str)) (window : Z) :
  (Py.len document <= window)%Z ->
  Forall (fun mention => snd mention = document)
    (find_context document technologies window).
Proof.
  intros Hw. apply Forall_forall. intros [k ctx] Hin.
  pose proof (find_context_justified document technologies window) as J.
  rewrite Forall_forall in J.
  destruct (J _ Hin) as (vs & v & i & _ & _ & M & ->).
  apply ReFacts.match_at_inside in M.
  apply context_whole; [exact Hw | lia | exact M].
Qed.

(** *** Nothing found *)

Lemma no_match_empty_mapping (document : str)
    (technologies : Dict.t (list str)) (window : Z) :
  (forall k vs v, In (k, vs) technologies -> In v vs ->
                  unmatched document v) ->
  find_context document technologies window = [].
Proof.
  intros Hno.
  destruct (find_context document technologies window) as [|[k ctx] r] eqn:E;
    [reflexivity|exfalso].
  pose proof (find_context_justified document technologies window) as J.
  rewrite E in J. inversion J as [|? ? (vs & v & i & Hk & Hv & M & _)]; subst.
  simpl in Hk. rewrite (Hno k vs v Hk Hv i) in M. discriminate.
Qed.

Lemma unmatched_empty_document (v : str) : unmatched [] v.
Proof.
  intros i. unfold Re.match_at, Re.boundary, Re.word_before, Re.word_at.
  destruct i as [|[|j]]; reflexivity.
Qed.

(** X18: in an empty document nothing is found, whatever the index holds,
    an empty variation included. *)
Theorem find_context_empty_document (technologies : Dict.t (list str))
    (window : Z) :
  find_context [] technologies window = [].
Proof.
  apply no_match_empty_mapping. intros k vs v _ _.
  apply unmatched_empty_document.
Qed.

(** ** More on the two [main] functions *)

Section RunFacts.

Variables (analysis exn : Type).

Lemma results_printed_table (rs : list (str * analysis)) :
  results_printed (print_table analysis rs) = rs.
Proof.
  unfold print_table. simpl.
  induction rs as [|[t a] rs IH]; simpl; [reflexivity|].
  rewrite IH. reflexivity.
Qed.

(** The loop of [main.py] when the backend answers every time. *)
Lemma analyze_loop_openai_returns
    (analyze : str -> str -> result analysis exn)
    (items : list (str * str)) (results : list analysis) :
  Forall2 (fun item a => analyze (snd item) (fst item) = Ok a)
    items results ->
  forall out : list (event analysis),
  exists out',
    analyze_loop_openai analysis exn analyze items out = Returned out' /\
    results_printed out'
    = results_printed out ++ combine (map fst items) results.
Proof.
  induction 1 as [|[t c] a items results Ha _ IH]; intros out; simpl.
  - exists out. rewrite app_nil_r. auto.
  - simpl in Ha. rewrite Ha.
    destruct (IH (out ++ [Analyzing t; FinalAnalysis t a]))
      as (out' & -> & E).
    exists out'. split; [reflexivity|].
    rewrite E, results_printed_app, <- app_assoc. reflexivity.
Qed.

(** The loop of [finbert.py] when the backend answers every time. *)
Lemma analyze_loop_finbert_returns
    (analyze : str -> result analysis exn)
    (items : list (str * str)) (results : list analysis) :
  Forall2 (fun item a => analyze (snd item) = Ok a) items results ->
  forall (out : list (event analysis)) (acc : list (str * analysis)),
  exists out',
    analyze_loop_finbert analysis exn analyze items out acc
    = Ok (out', acc ++ combine (map fst items) results) /\
    results_printed out' = results_printed out.
Proof.
  induction 1 as [|[t c] a items results Ha _ IH]; intros out acc; simpl.
  - exists out. rewrite app_nil_r. auto.
  - simpl in Ha. rewrite Ha.
    destruct (IH (out ++ [Analyzing t]) (acc ++ [(t, a)]))
      as (out' & -> & E).
    exists out'. rewrite <- app_assoc. split; [reflexivity|].
    rewrite E, results_printed_app, app_nil_r. reflexivity.
Qed.

End RunFacts.

(** X19: when the backend answers for every mention, [main] returns and
    has printed one result for every mentioned entity, in the order of the
    mentions, which is that of the index; this holds for [main.py] and for
    [finbert.py], and with no mention at all no result is printed. *)
Theorem main_reports_every_mention (analysis exn : Type)
    (analyze_with_openai : str -> str -> result analysis exn)
    (analyze_with_finbert : str -> result analysis exn)
    (document : str) (df : list cell) (results : list analysis) :
  let mentions :=
    find_context document (get_technologies df) default_window in
  (Forall2 (fun item a => analyze_with_openai (snd item) (fst item) = Ok a)
     mentions results ->
   exists out,
     main_openai analysis exn analyze_with_openai (Some document) (Some df)
     = Returned out /\
     results_printed out = combine (Dict.keys mentions) results) /\
  (Forall2 (fun item a => analyze_with_finbert (snd item) = Ok a)
     mentions results ->
   exists out,
     main_finbert analysis exn analyze_with_finbert (Some document) (Some df)
     = Returned out /\
     results_printed out = combine (Dict.keys mentions) results).
Proof.
  intros mentions. unfold main_openai, main_finbert. fold mentions.
  split; intros H.
  - destruct (Dict.is_empty mentions) eqn:Em.
    + destruct mentions; [|discriminate]. inversion H; subst.
      eexists. split; reflexivity.
    + destruct (analyze_loop_openai_returns analysis exn analyze_with_openai
                  mentions results H
                  ([Step1] ++ get_technologies_prints analysis df ++ [Step2]
                   ++ find_context_prints analysis mentions ++ [Step3]))
        as (out & -> & E).
      exists out. split; [reflexivity|]. rewrite E. simpl.
      rewrite results_printed_app, find_context_prints_no_result.
      reflexivity.
  - destruct (Dict.is_empty mentions) eqn:Em.
    + destruct mentions; [|discriminate]. inversion H; subst.
      eexists. split; reflexivity.
    + destruct (analyze_loop_finbert_returns analysis exn
                  analyze_with_finbert mentions results H
                  [Step1; Step2; Step3] [])
        as (out & -> & E).
      eexists. split; [reflexivity|].
      rewrite results_printed_app, E, results_printed_table. reflexivity.
Qed.

(** X20: when no variation of the index has a match in the document, both
    [main] functions print that nothing was found and return; the backend
    has no part in the outcome. *)
Theorem main_nothing_found (analysis exn : Type)
    (analyze_with_openai : str -> str -> result analysis exn)
    (analyze_with_finbert : str -> result analysis exn)
    (document : str) (df : list cell) :
  (forall k vs v, In (k, vs) (get_technologies df) -> In v vs ->
                  unmatched document v) ->
  main_openai analysis exn analyze_with_openai (Some document) (Some df)
  = Returned ([Step1] ++ get_technologies_prints analysis df
              ++ [Step2; Step3; NoTechnologies]) /\
  main_finbert analysis exn analyze_with_finbert (Some document) (Some df)
  = Returned [Step1; Step2; Step3; NoTechnologies].
Proof.
  intros Hno. unfold main_openai, main_finbert.
  rewrite (no_match_empty_mapping document (get_technologies df)
             default_window Hno).
  split; reflexivity.
Qed.

(** ** From the page to the mention *)

Lemma word_framed (w : str) : is_a_word w -> framed w.
Proof.
  intros [Hne Hw]. split.
  - destruct w as [|c w]; [congruence|]. inversion Hw; subst. assumption.
  - unfold ends_with_word.
    assert (Hr : word_run (rev w)) by apply Forall_rev, Hw.
    destruct (rev w) as [|c r] eqn:E.
    + exfalso. apply Hne. rewrite <- (rev_involutive w), E. reflexivity.
    + inversion Hr; subst. assumption.
Qed.

(** X21: a name broken by a hyphen at a line end is found all the same:
    when the text of the pages has the two halves of a variation around a
    line break, behind a separator and before something that is no word
    character, the entity has a mention in the text [parse_pdf_to_text]
    returns. *)
Theorem hyphenated_name_is_found (pages : list str) (x v1 v2 post : str)
    (s : ascii) (technologies : Dict.t (list str)) (window : Z) (k : str)
    (vs : list str) :
  pages_text pages = x ++ s :: v1 ++ line_break ++ v2 ++ post ->
  separator s -> is_a_word v1 -> is_a_word v2 ->
  starts_with_word post = false ->
  NoDup (Dict.keys technologies) -> In (k, vs) technologies ->
  In (v1 ++ v2) vs ->
  Dict.mem k (find_context (parse_pdf_to_text pages) technologies window)
  = true.
Proof.
  intros Ep Hs H1 H2 Hp Hnd Hk Hv.
  apply (mentioned_iff _ technologies window k vs Hnd Hk).
  assert (F : framed (v1 ++ v2)) by (apply word_framed, is_a_word_app; auto).
  assert (St : standalone (v1 ++ v2) (parse_pdf_to_text pages)).
  { unfold parse_pdf_to_text. rewrite Ep.
    rewrite (HyphenFacts.rejoin_cut x _ s Hs).
    rewrite (HyphenFacts.rejoin_match
               (v1 ++ line_break ++ v2 ++ post) v1 v2 post)
      by (apply HyphenFacts.match_here_Some; auto).
    exists (Hyphen.rejoin x ++ [s]), (v1 ++ v2), (Hyphen.rejoin post).
    split; [rewrite <- !app_assoc; reflexivity|].
    split; [apply same_ci_refl|]. split.
    - unfold ends_with_word. rewrite rev_app_distr. simpl. apply Hs.
    - destruct post as [|c r]; [reflexivity|].
      rewrite HyphenFacts.rejoin_nonword by exact Hp. exact Hp. }
  apply (framed_matched_iff_standalone _ _ F) in St.
  destruct St as (i & M). exists (v1 ++ v2), i. auto.
Qed.

(** ** The added properties at sample inputs *)

Lemma has_line_break_false (t : str) :
  has_line_break t = false -> no_line_break t.
Proof.
  intros H pre post ->. revert H. unfold line_break.
  induction pre as [|c pre IH]; simpl.
  - rewrite ?Ascii.eqb_refl. discriminate.
  - destruct (pre ++ Hyphen.hyphen :: Hyphen.newline :: post) eqn:E.
    + destruct pre; discriminate.
    + rewrite orb_false_iff. intros [_ H]. apply IH. simpl.
      rewrite E. exact H.
Qed.

Lemma nothing_matches_true (document : str)
    (technologies : Dict.t (list str)) :
  nothing_matches document technologies = true ->
  forall k vs v, In (k, vs) technologies -> In v vs -> unmatched document v.
Proof.
  unfold nothing_matches. rewrite forallb_forall. intros H k vs v Hk Hv.
  specialize (H (k, vs) Hk). apply negb_true_iff in H. simpl in H.
  apply (proj1 (has_match_false document vs) H v Hv).
Qed.

Lemma is_a_word_net : is_a_word (lit "net").
Proof. split; [discriminate | repeat constructor]. Qed.

Lemma is_a_word_iPh : is_a_word (lit "iPh").
Proof. split; [discriminate | repeat constructor]. Qed.

Lemma is_a_word_one : is_a_word (lit "one").
Proof. split; [discriminate | repeat constructor]. Qed.

Lemma separator_space : separator Texts.space.
Proof. split; reflexivity. Qed.

Lemma parse_pdf_to_text_unbroken_witness :
  parse_pdf_to_text Texts.two_pages = pages_text Texts.two_pages.
Proof.
  apply (parse_pdf_to_text_unbroken Texts.two_pages).
  apply has_line_break_false. vm_compute. reflexivity.
Defined.

Lemma rejoin_joins_hyphenated_word_witness :
  Hyphen.rejoin (lit "iPh" ++ line_break ++ lit "one" ++ lit " sales")
  = lit "iPh" ++ lit "one" ++ Hyphen.rejoin (lit " sales").
Proof.
  apply (proj1 (rejoin_joins_hyphenated_word (lit "iPh") (lit "one")
                  (lit " sales") is_a_word_iPh is_a_word_one eq_refl)).
Defined.

Lemma rejoin_keeps_second_break_witness :
  Hyphen.rejoin
    (lit "net" ++ line_break ++ lit "iPh" ++ line_break ++ lit "one"
     ++ lit " sales")
  = lit "net" ++ lit "iPh" ++ line_break ++ lit "one"
    ++ Hyphen.rejoin (lit " sales").
Proof.
  apply (proj1 (rejoin_keeps_second_break (lit "net") (lit "iPh")
                  (lit "one") (lit " sales") is_a_word_net is_a_word_iPh
                  is_a_word_one separator_space)).
Defined.

Lemma rejoin_cut_at_separator_witness :
  Hyphen.rejoin (lit "net" ++ Texts.space :: lit "sales")
  = Hyphen.rejoin (lit "net") ++ Texts.space :: Hyphen.rejoin (lit "sales").
Proof.
  apply (rejoin_cut_at_separator (lit "net") (lit "sales") Texts.space).
  exact separator_space.
Defined.


Lemma get_technologies_order_independent_witness :
  same_index
    (get_technologies [CellStr (lit "AI; VR"); CellStr (lit "5G")])
    (get_technologies
       [CellStr (lit "5G"); CellStr (lit "AI; VR"); CellStr (lit "5G")]).
Proof.
  apply get_technologies_order_independent.
  intros c. simpl. tauto.
Defined.

Lemma find_context_keeps_index_order_witness :
  Dict.keys (find_context Sample.doc_ipadding synonym_seed 5)
  = Dict.keys (filter (fun e => has_match Sample.doc_ipadding (snd e))
                 synonym_seed) /\
  Dict.keys (find_context Sample.doc_ipadding synonym_seed 5)
  = Dict.keys (find_context Sample.doc_ipadding synonym_seed 500).
Proof.
  apply (find_context_keeps_index_order Sample.doc_ipadding synonym_seed
           5 500).
  exact seed_keys_NoDup.
Defined.

Lemma find_context_mentioned_iff_witness :
  Dict.mem (lit "iPad")
    (find_context Sample.doc_ipadding synonym_seed default_window) = true
  <-> exists v i, In v [lit "iPad"; lit "iOS"] /\
                  Re.match_at v Sample.doc_ipadding i = true.
Proof.
  apply (find_context_mentioned_iff Sample.doc_ipadding synonym_seed
           default_window (lit "iPad") [lit "iPad"; lit "iOS"]).
  - exact seed_keys_NoDup.
  - simpl. auto.
Defined.

Lemma find_context_ignores_variation_case_witness :
  find_context Sample.doc_ipadding Texts.upper_index default_window
  = find_context Sample.doc_ipadding Texts.lower_index default_window.
Proof.
  apply find_context_ignores_variation_case.
  repeat constructor.
Defined.

Lemma find_context_ignores_document_case_witness :
  (forall v, Re.first_match v (lit "the iPad runs iOS")
             = Re.first_match v (lit "THE IPAD RUNS IOS")) /\
  Dict.keys (find_context (lit "the iPad runs iOS") synonym_seed
               default_window)
  = Dict.keys (find_context (lit "THE IPAD RUNS IOS") synonym_seed
                 default_window).
Proof.
  apply find_context_ignores_document_case.
  - repeat constructor.
  - exact seed_keys_NoDup.
Defined.

Lemma find_context_shows_the_mention_witness :
  exists vs v mid,
    In (lit "iPad", vs) synonym_seed /\ In v vs /\ same_ci v mid /\
    occurs_in mid (lit "uct; iOS is.").
Proof.
  apply (find_context_shows_the_mention Sample.doc_ipadding synonym_seed 5
           (lit "iPad") (lit "uct; iOS is.")).
  - lia.
  - vm_compute. reflexivity.
Defined.

Lemma find_context_short_document_witness :
  Forall (fun mention => snd mention = Sample.doc_ipadding)
    (find_context Sample.doc_ipadding synonym_seed default_window).
Proof.
  apply find_context_short_document. vm_compute. discriminate.
Defined.

Lemma main_reports_every_mention_witness :
  exists out,
    main_openai str Sample.failure Sample.steady_openai
      (Some Sample.doc_ipadding) (Some [])
    = Returned out /\
    results_printed out
    = [(lit "iPhone", lit "Positive"); (lit "iPad", lit "Positive")].
Proof.
  apply (proj1 (main_reports_every_mention str Sample.failure
                  Sample.steady_openai Sample.steady_finbert
                  Sample.doc_ipadding []
                  [lit "Positive"; lit "Positive"])).
  vm_compute. repeat constructor.
Defined.

Lemma main_nothing_found_witness :
  main_openai str Sample.failure Sample.failing_openai
    (Some Texts.quiet) (Some [])
  = Returned ([Step1] ++ get_technologies_prints str []
              ++ [Step2; Step3; NoTechnologies]) /\
  main_finbert str Sample.failure Sample.failing_finbert
    (Some Texts.quiet) (Some [])
  = Returned [Step1; Step2; Step3; NoTechnologies].
Proof.
  apply main_nothing_found.
  apply nothing_matches_true. vm_compute. reflexivity.
Defined.

Lemma hyphenated_name_is_found_witness :
  Dict.mem (lit "iPhone")
    (find_context
       (parse_pdf_to_text
          [lit "of" ++ Texts.space :: lit "iPh" ++ [Hyphen.hyphen];
           lit "one" ++ lit " sales"])
       synonym_seed default_window)
  = true.
Proof.
  apply (hyphenated_name_is_found _ (lit "of") (lit "iPh") (lit "one")
           (lit " sales" ++ [Hyphen.newline]) Texts.space synonym_seed
           default_window (lit "iPhone") [lit "iPhone"; lit "iOS"]).
  - vm_compute. reflexivity.
  - exact separator_space.
  - exact is_a_word_iPh.
  - exact is_a_word_one.
  - reflexivity.
  - exact seed_keys_NoDup.
  - simpl. auto.
  - simpl. auto.
Defined.
